(** * Convack: convex polygons, their hulls and the packing score

    A shallow embedding of the convack library (src/src/point2.cpp,
    src/src/transformation.cpp, src/src/convex_polygon.cpp,
    src/src/beam/packing_candidate.cpp).

    Numbers.  [coordinate_t] and [area_t] are [float] in the source.  The
    predicates, the hull algorithms and the packing score only add, subtract,
    multiply, divide and compare, so they are modelled in exact rational
    arithmetic [Q] (every float is a rational number); the transformations
    use [std::cos]/[std::sin] and are modelled over the reals [R].  Rounding
    is not modelled.

    Loops.  The two [do { ... } while] loops of the hull algorithms and the
    binary searches have no bound in the source; here they run on an
    explicit amount of fuel and return [None] when it is used up. *)

From Stdlib Require Import QArith Qround List Bool Arith Lia.
From Stdlib Require Import Reals Psatz Permutation.
Import ListNotations.

(** ** Points and the polygon record *)

(** [struct Point2] (point2.hpp), over a coordinate type [K]. *)
Record Point2 (K : Type) := mkPoint2 { x : K; y : K }.
Arguments mkPoint2 {K} _ _.
Arguments x {K} _.
Arguments y {K} _.

(** [class Transformation] (transformation.hpp): [std::array<double, 6> data],
    the matrix [[data0, data2, data4], [data1, data3, data5]]. *)
Record Transformation := mkTransformation {
  data0 : R; data1 : R; data2 : R; data3 : R; data4 : R; data5 : R }.

(** [Transformation::Transformation()]: the identity. *)
Definition Transformation_new : Transformation :=
  mkTransformation 1%R 0%R 0%R 1%R 0%R 0%R.

(** [ConvexPolygon::Impl] (convex_polygon.cpp): the vertices and the
    transformation applied since construction. *)
Record ConvexPolygon (K : Type) := mkConvexPolygon {
  vertices : list (Point2 K);
  transformation : Transformation }.
Arguments mkConvexPolygon {K} _ _.
Arguments vertices {K} _.
Arguments transformation {K} _.

(** [ConvexPolygon::ConvexPolygon(const std::vector<Point2>&)]. *)
Definition ConvexPolygon_new {K} (vs : list (Point2 K)) : ConvexPolygon K :=
  mkConvexPolygon vs Transformation_new.

(** ** Exact geometry over [Q] *)
Module Geometry.
Local Open Scope Q_scope.

Definition Point : Type := Point2 Q.

(** The strict [<] on [float]s. *)
Definition Qlt_bool (a b : Q) : bool := negb (Qle_bool b a).

(** [Point2::operator ==]: exact equality of both coordinates. *)
Definition point_eqb (a b : Point) : bool := Qeq_bool (x a) (x b) && Qeq_bool (y a) (y b).

(** [Point2::operator -]. *)
Definition point_sub (a b : Point) : Point := mkPoint2 (x a - x b) (y a - y b).

(** [Point2::magnitude2]. *)
Definition magnitude2 (p : Point) : Q := x p * x p + y p * y p.

(** [Point2::dot], used by [collides]. *)
Definition dot (a b : Point) : Q := x a * x b + y a * y b.

(** [ConvexPolygon::Impl::is_left]. *)
Definition is_left (a b query : Point) : Q :=
  (x b - x a) * (y query - y a) - (y b - y a) * (x query - x a).

Definition origin : Point := mkPoint2 0 0.

(** [vertices[i]], always with [i] in range where it is used. *)
Definition vertex_at (vs : list Point) (i : nat) : Point := nth i vs origin.

(** [vertices.back()]. *)
Definition last_vertex_of (vs : list Point) : Point := List.last vs origin.

(** [ConvexPolygon::Impl::area]: the shoelace loop, with [previous]
    starting at [vertices.size() - 1]. *)
Definition area (vs : list Point) : Q :=
  let n := length vs in
  let step (acc : Q * nat) (vertex : nat) :=
    let '(a, previous) := acc in
    (a + (x (vertex_at vs previous) * y (vertex_at vs vertex)
          - y (vertex_at vs previous) * x (vertex_at vs vertex)), vertex) in
  fst (fold_left step (seq 0 n) (0, (n - 1)%nat)) / 2.

(** [ConvexPolygon::Impl::contains]: every edge must have the point strictly
    to its left; the loop returns [false] at the first edge that fails. *)
Definition contains (vs : list Point) (point : Point) : bool :=
  let n := length vs in
  if (n <? 3)%nat then false
  else forallb (fun i => negb (Qle_bool (is_left (vertex_at vs i)
                                                  (vertex_at vs ((i + 1) mod n)) point) 0))
               (seq 0 n).

(** One edge of [this] in [collides]: is some vertex of [other] strictly on
    the negative side of the axis perpendicular to the edge? *)
Definition axis_overlap (this other : list Point) (this_edge : nat) : bool :=
  let n := length this in
  let edge_vector := point_sub (vertex_at this ((this_edge + 1) mod n)) (vertex_at this this_edge) in
  let axis_vector := mkPoint2 (y edge_vector) (- x edge_vector) in
  existsb (fun other_vertex =>
             Qlt_bool (dot axis_vector (point_sub other_vertex (vertex_at this this_edge))) 0)
          other.

(** [ConvexPolygon::Impl::collides(other, false)]: the call made back from
    the other polygon, which does not check back again. *)
Definition collides_impl_back (this other : list Point) : bool :=
  if ((length this <? 3) || (length other <? 3))%nat then false
  else if negb (forallb (axis_overlap this other) (seq 0 (length this))) then false
  else true.

(** [ConvexPolygon::Impl::collides(other, check_other)]. *)
Definition collides_impl (this other : list Point) (check_other : bool) : bool :=
  if ((length this <? 3) || (length other <? 3))%nat then false
  else if negb (forallb (axis_overlap this other) (seq 0 (length this))) then false
  else if check_other then collides_impl_back other this
  else true.

(** [ConvexPolygon::collides]: [check_other] defaults to [true]. *)
Definition collides (this other : list Point) : bool := collides_impl this other true.

(** [ConvexPolygon::Impl::operator ==]: same size, and equal element-wise
    for some rotation [offset] of the other vertex list. *)
Definition poly_eq (vs ws : list Point) : bool :=
  let n := length vs in
  if negb (n =? length ws)%nat then false
  else if (n =? 0)%nat then true
  else existsb (fun offset =>
                  forallb (fun i => point_eqb (vertex_at vs i) (vertex_at ws ((i + offset) mod n)))
                          (seq 0 n))
               (seq 0 n).


(** ** [ConvexPolygon::Impl::gift_wrapping] *)

(** The comparator given to [std::min_element]: lexicographic on (x, y). *)
Definition lex_less (a b : Point) : bool :=
  Qlt_bool (x a) (x b) || (Qeq_bool (x a) (x b) && Qlt_bool (y a) (y b)).

(** [std::min_element]: the first element that no later one is less than. *)
Definition min_element (points : list Point) : Point :=
  match points with
  | [] => origin
  | p :: ps => fold_left (fun smallest q => if lex_less q smallest then q else smallest) ps p
  end.

(** The first candidate that differs from [last], or [last] itself. *)
Definition first_other (points : list Point) (last : Point) : Point :=
  match find (fun candidate => negb (point_eqb candidate last)) points with
  | Some c => c
  | None => last
  end.

(** One update of [best] by [next] in the scan for the right-most vertex. *)
Definition wrap_update (last best next : Point) : Point :=
  let left := is_left last best next in
  if Qlt_bool left 0 then next
  else if Qeq_bool left 0 then
    (if Qlt_bool (magnitude2 (point_sub best last)) (magnitude2 (point_sub next last))
     then next else best)
  else best.

(** The body of the [do]-loop: the vertex that follows [last] on the hull. *)
Definition wrap_next (points : list Point) (last : Point) : Point :=
  fold_left (wrap_update last) points (first_other points last).

(** The [do { ... } while(last != result[0])] loop; [result] is kept in
    order, the new vertex appended at its end. *)
Fixpoint wrap_loop (fuel : nat) (points : list Point) (last : Point)
    (result : list Point) : option (list Point) :=
  match fuel with
  | O => None
  | S fuel' =>
      let result := result ++ [last] in
      let last := wrap_next points last in
      if point_eqb last (vertex_at result 0) then Some result
      else wrap_loop fuel' points last result
  end.

(** The fuel of the loop: twice the number of points. *)
Definition wrap_fuel (points : list Point) : nat := 2 * length points.

Definition gift_wrapping (points : list Point) : option (ConvexPolygon Q) :=
  if (length points <=? 2)%nat then Some (ConvexPolygon_new points)
  else match wrap_loop (wrap_fuel points) points (min_element points) [] with
       | Some result => Some (ConvexPolygon_new result)
       | None => None
       end.

(** [ConvexPolygon::convex_hull(const std::vector<Point2>&)]. *)
Definition convex_hull (points : list Point) : option (ConvexPolygon Q) :=
  gift_wrapping points.


(** ** [ConvexPolygon::Impl::chans_algorithm] *)

(** [std::numeric_limits<float>::max()]. *)
Definition float_max : Q := inject_Z ((2 ^ 24 - 1) * 2 ^ 104).

(** The binary search for the left-most vertex of one convex polygon
    ([while(upper_bound - lower_bound > 1)]); returns [lower_bound]. *)
Fixpoint leftmost_search (fuel : nat) (vs : list Point) (lower_bound upper_bound : nat) : nat :=
  match fuel with
  | O => lower_bound
  | S fuel' =>
    if (upper_bound - lower_bound <=? 1)%nat then lower_bound else
    let n := length vs in
    let pivot := ((upper_bound + lower_bound) / 2)%nat in
    let pivot_point := vertex_at vs pivot in
    let pivot_next := vertex_at vs ((pivot + 1) mod n) in
    let pivot_goes_left := lex_less pivot_next pivot_point in
    let pivot_previous := vertex_at vs ((pivot - 1 + n) mod n) in
    if negb pivot_goes_left && lex_less pivot_point pivot_previous then pivot else
    let lower_point := vertex_at vs lower_bound in
    let lower_next := vertex_at vs ((lower_bound + 1) mod n) in
    let lower_goes_left := lex_less lower_next lower_point in
    if lower_goes_left then
      (if negb pivot_goes_left then leftmost_search fuel' vs lower_bound pivot
       else if lex_less pivot_point lower_point then leftmost_search fuel' vs (pivot + 1) upper_bound
       else leftmost_search fuel' vs lower_bound pivot)
    else
      (if pivot_goes_left then leftmost_search fuel' vs (pivot + 1) upper_bound
       else if lex_less lower_point pivot_point then leftmost_search fuel' vs (pivot + 1) upper_bound
       else leftmost_search fuel' vs lower_bound pivot)
  end.

(** The index of the left-most vertex of one non-empty convex polygon. *)
Definition leftmost_index (vs : list Point) : nat :=
  if (1 <? length vs)%nat
     && negb (lex_less (vertex_at vs 0) (vertex_at vs 1)
              && lex_less (vertex_at vs 0) (last_vertex_of vs))
  then leftmost_search (length vs) vs 0 (length vs)
  else 0.

(** The first loop of [chans_algorithm]: [best], [best_vertex] and
    [best_polygon] ([None] for [size_t(-1)]). *)
Definition leftmost_start (convex_polygons : list (ConvexPolygon Q))
    : Point * nat * option nat :=
  fold_left
    (fun (acc : Point * nat * option nat) polygon =>
       let '(best, best_vertex, best_polygon) := acc in
       let vs := vertices (nth polygon convex_polygons (ConvexPolygon_new [])) in
       match vs with
       | [] => acc
       | _ =>
         let lower_bound := leftmost_index vs in
         if lex_less (vertex_at vs lower_bound) best
         then (vertex_at vs lower_bound, lower_bound, Some polygon)
         else acc
       end)
    (seq 0 (length convex_polygons))
    (mkPoint2 float_max 0, 0%nat, None).

(** "[b] goes right of [a]" seen from [last]: [b] is to the right of the
    line from [last] through [a], or on it and farther away. *)
Definition goes_right (last a b : Point) : bool :=
  let how_left := is_left last a b in
  Qlt_bool how_left 0
  || (Qeq_bool how_left 0
      && Qlt_bool (magnitude2 (point_sub a last)) (magnitude2 (point_sub b last))).

(** The binary search for the right-most vertex of one convex polygon as seen
    from [last]; returns [lower_bound]. *)
Fixpoint rightmost_search (fuel : nat) (last : Point) (vs : list Point)
    (lower_bound upper_bound : nat) : nat :=
  match fuel with
  | O => lower_bound
  | S fuel' =>
    if (upper_bound - lower_bound <=? 1)%nat then lower_bound else
    let n := length vs in
    let pivot := ((upper_bound + lower_bound) / 2)%nat in
    let pivot_point := vertex_at vs pivot in
    let pivot_next := vertex_at vs ((pivot + 1) mod n) in
    let pivot_how_left := is_left last pivot_point pivot_next in
    let pivot_goes_right := goes_right last pivot_point pivot_next in
    let pivot_previous := vertex_at vs ((pivot - 1 + n) mod n) in
    if negb pivot_goes_right && goes_right last pivot_previous pivot_point then pivot else
    let lower_point := vertex_at vs lower_bound in
    let lower_next := vertex_at vs ((lower_bound + 1) mod n) in
    let lower_how_left := is_left last lower_point lower_next in
    let lower_goes_right := goes_right last lower_point lower_next in
    let pivot_d := magnitude2 (point_sub pivot_point last) in
    let lower_d := magnitude2 (point_sub lower_point last) in
    if lower_goes_right then
      (if negb pivot_goes_right then rightmost_search fuel' last vs lower_bound pivot
       else if Qlt_bool pivot_how_left lower_how_left
               || (Qeq_bool pivot_how_left lower_how_left && Qlt_bool lower_d pivot_d)
       then rightmost_search fuel' last vs (pivot + 1) upper_bound
       else rightmost_search fuel' last vs lower_bound pivot)
    else
      (if pivot_goes_right then rightmost_search fuel' last vs (pivot + 1) upper_bound
       else if Qlt_bool lower_how_left pivot_how_left
               || (Qeq_bool pivot_how_left lower_how_left && Qlt_bool pivot_d lower_d)
       then rightmost_search fuel' last vs (pivot + 1) upper_bound
       else rightmost_search fuel' last vs lower_bound pivot)
  end.

(** The index of the right-most vertex of one non-empty convex polygon as
    seen from [last]. *)
Definition rightmost_index (last : Point) (vs : list Point) : nat :=
  if (1 <? length vs)%nat
     && negb (goes_right last (vertex_at vs 1) (vertex_at vs 0)
              && goes_right last (last_vertex_of vs) (vertex_at vs 0))
  then rightmost_search (length vs) last vs 0 (length vs)
  else 0.


(** One polygon of the scan in the [do]-loop of [chans_algorithm]: replace
    [best] by the right-most vertex of [polygon] if that one goes right of it. *)
Definition chans_update (convex_polygons : list (ConvexPolygon Q)) (last : Point)
    (acc : Point * nat * nat) (polygon : nat) : Point * nat * nat :=
  let '(best, best_vertex, best_polygon) := acc in
  let vs := vertices (nth polygon convex_polygons (ConvexPolygon_new [])) in
  match vs with
  | [] => acc
  | _ =>
    let lower_bound := rightmost_index last vs in
    if goes_right last best (vertex_at vs lower_bound)
    then (vertex_at vs lower_bound, lower_bound, polygon)
    else acc
  end.

(** The [do { ... } while(best != result[0])] loop of [chans_algorithm].
    The scan visits the polygons [last_polygon + 1], ..., [last_polygon - 1]
    (modulo their number). *)
Fixpoint chans_loop (fuel : nat) (convex_polygons : list (ConvexPolygon Q))
    (best last : Point) (best_polygon last_polygon last_vertex : nat)
    (result : list Point) : option (list Point) :=
  match fuel with
  | O => None
  | S fuel' =>
    let result := result ++ [best] in
    let m := length convex_polygons in
    let last_vs := vertices (nth last_polygon convex_polygons (ConvexPolygon_new [])) in
    let best_vertex := ((last_vertex + 1) mod length last_vs)%nat in
    let best := vertex_at last_vs best_vertex in
    let '(best, best_vertex, best_polygon) :=
      fold_left (chans_update convex_polygons last)
                (map (fun k => (last_polygon + k) mod m)%nat (seq 1 (m - 1)))
                (best, best_vertex, best_polygon) in
    if point_eqb best (vertex_at result 0) then Some result
    else chans_loop fuel' convex_polygons best best best_polygon best_polygon best_vertex result
  end.

(** The fuel of the [do]-loop: twice the total number of vertices. *)
Definition chans_fuel (convex_polygons : list (ConvexPolygon Q)) : nat :=
  2 * fold_left (fun n p => n + length (vertices p))%nat convex_polygons 0%nat.

Definition chans_algorithm (convex_polygons : list (ConvexPolygon Q)) : option (ConvexPolygon Q) :=
  match convex_polygons with
  | [] => Some (ConvexPolygon_new [])
  | [p] => Some p
  | _ =>
    match leftmost_start convex_polygons with
    | (_, _, None) => Some (ConvexPolygon_new [])
    | (best, best_vertex, Some best_polygon) =>
      match chans_loop (chans_fuel convex_polygons) convex_polygons best best
                       best_polygon best_polygon best_vertex [] with
      | Some result => Some (ConvexPolygon_new result)
      | None => None
      end
    end
  end.

(** [ConvexPolygon::convex_hull(const std::vector<ConvexPolygon>&)]. *)
Definition convex_hull_polygons (convex_polygons : list (ConvexPolygon Q)) : option (ConvexPolygon Q) :=
  chans_algorithm convex_polygons.

End Geometry.

(** ** [PackingCandidate] (packing_candidate.cpp) *)
Module Packing.
Import Geometry.
Local Open Scope Q_scope.

(** [packed_objects] is the (referenced) vector of all polygons, [pack_here]
    a copy of the polygon placed at this node, [parent] the parent node, and
    [score] the value computed once by the constructor ([None] when the hull
    computation does not finish). *)
Inductive PackingCandidate := mkPackingCandidate {
  packed_objects : list (ConvexPolygon Q);
  pack_here : ConvexPolygon Q;
  parent : option PackingCandidate;
  score : option Q }.

(** The [while(candidate)] walk up the parent chain of [compute_score],
    starting at the node under construction. *)
Fixpoint candidate_chain (candidate : PackingCandidate) : list (ConvexPolygon Q) :=
  match candidate with
  | mkPackingCandidate _ here parent _ =>
    here :: match parent with
            | None => []
            | Some p => candidate_chain p
            end
  end.

Definition parent_chain (parent : option PackingCandidate) : list (ConvexPolygon Q) :=
  match parent with
  | None => []
  | Some p => candidate_chain p
  end.

(** [PackingCandidate::compute_score]. *)
Definition compute_score (packed_objects : list (ConvexPolygon Q))
    (pack_here : ConvexPolygon Q) (parent : option PackingCandidate) : option Q :=
  let packed_so_far := pack_here :: parent_chain parent in
  let covered_area := fold_left (fun _ convex_polygon => area (vertices convex_polygon))
                                packed_objects 0 in
  match convex_hull_polygons packed_objects with
  | None => None
  | Some hull =>
    let lost_area := area (vertices hull) in
    if Qle_bool lost_area 0 then Some 0
    else Some (1 - covered_area / lost_area)
  end.

(** [PackingCandidate::PackingCandidate]: [score = compute_score()]. *)
Definition PackingCandidate_new (packed_objects : list (ConvexPolygon Q))
    (pack_here : ConvexPolygon Q) (parent : option PackingCandidate) : PackingCandidate :=
  mkPackingCandidate packed_objects pack_here parent
                     (compute_score packed_objects pack_here parent).

(** [PackingCandidate::get_score]. *)
Definition get_score (c : PackingCandidate) : option Q := score c.

End Packing.


(** ** Transformations over [R] (transformation.cpp, convex_polygon.cpp) *)
Module Transform.
Local Open Scope R_scope.

Definition RPoint : Type := Point2 R.

(** [Transformation::apply]. *)
Definition apply (t : Transformation) (point : RPoint) : RPoint :=
  mkPoint2 (data0 t * x point + data2 t * y point + data4 t)
           (data1 t * x point + data3 t * y point + data5 t).

(** [Transformation::rotate]: every entry computed from the old matrix. *)
Definition rotate (t : Transformation) (angle_radians : R) : Transformation :=
  let cosine := cos angle_radians in
  let sine := sin angle_radians in
  mkTransformation (cosine * data0 t - sine * data1 t)
                   (sine * data0 t + cosine * data1 t)
                   (cosine * data2 t - sine * data3 t)
                   (sine * data2 t + cosine * data3 t)
                   (cosine * data4 t - sine * data5 t)
                   (sine * data4 t + cosine * data5 t).

(** [Transformation::translate]: [data[4] += x; data[5] += y]. *)
Definition translate (t : Transformation) (dx dy : R) : Transformation :=
  mkTransformation (data0 t) (data1 t) (data2 t) (data3 t) (data4 t + dx) (data5 t + dy).

(** [ConvexPolygon::Impl::translate]: the vertices are moved by a fresh
    translation, and the same translation is recorded. *)
Definition polygon_translate (p : ConvexPolygon R) (dx dy : R) : ConvexPolygon R :=
  let translation := translate Transformation_new dx dy in
  mkConvexPolygon (map (apply translation) (vertices p))
                  (translate (transformation p) dx dy).

(** [ConvexPolygon::Impl::rotate]. *)
Definition polygon_rotate (p : ConvexPolygon R) (angle_radians : R) : ConvexPolygon R :=
  let rotation := rotate Transformation_new angle_radians in
  mkConvexPolygon (map (apply rotation) (vertices p))
                  (rotate (transformation p) angle_radians).

(** A sequence of mutator calls on a polygon, in the order issued. *)
Inductive Operation := Translate (dx dy : R) | Rotate (angle_radians : R).

Definition perform (p : ConvexPolygon R) (op : Operation) : ConvexPolygon R :=
  match op with
  | Translate dx dy => polygon_translate p dx dy
  | Rotate a => polygon_rotate p a
  end.

Definition perform_all (p : ConvexPolygon R) (ops : list Operation) : ConvexPolygon R :=
  fold_left perform ops p.

(** Reference notions for the claims: the product of affine matrices
    ([compose s t] applies [t] first, then [s]), the matrix of a single
    operation, the CCW rotation of a vector and the inverse of a matrix. *)
Definition compose (s t : Transformation) : Transformation :=
  mkTransformation (data0 s * data0 t + data2 s * data1 t)
                   (data1 s * data0 t + data3 s * data1 t)
                   (data0 s * data2 t + data2 s * data3 t)
                   (data1 s * data2 t + data3 s * data3 t)
                   (data0 s * data4 t + data2 s * data5 t + data4 s)
                   (data1 s * data4 t + data3 s * data5 t + data5 s).

Definition operation_matrix (op : Operation) : Transformation :=
  match op with
  | Translate dx dy => mkTransformation 1 0 0 1 dx dy
  | Rotate a => mkTransformation (cos a) (sin a) (- sin a) (cos a) 0 0
  end.

(** The left-composition of the operations' matrices, newest on the left. *)
Definition composed_matrix (ops : list Operation) : Transformation :=
  fold_left (fun m op => compose (operation_matrix op) m) ops Transformation_new.

Definition rotate_vector (theta : R) (v : RPoint) : RPoint :=
  mkPoint2 (cos theta * x v - sin theta * y v) (sin theta * x v + cos theta * y v).

Definition determinant (t : Transformation) : R := data0 t * data3 t - data2 t * data1 t.

Definition inverse (t : Transformation) : Transformation :=
  let det := determinant t in
  mkTransformation (data3 t / det) (- data1 t / det) (- data2 t / det) (data0 t / det)
                   ((data2 t * data5 t - data3 t * data4 t) / det)
                   ((data1 t * data4 t - data0 t * data5 t) / det).

(** [Point2::operator -], [Point2::magnitude2] and
    [ConvexPolygon::Impl::is_left] on the real-valued points that the
    transformations produce. *)
Definition rpoint_sub (a b : RPoint) : RPoint := mkPoint2 (x a - x b) (y a - y b).

Definition rmagnitude2 (p : RPoint) : R := x p * x p + y p * y p.

Definition r_is_left (a b query : RPoint) : R :=
  (x b - x a) * (y query - y a) - (y b - y a) * (x query - x a).

Definition rorigin : RPoint := mkPoint2 0 0.

End Transform.

(** ** Test fixtures (src/test) *)
Module Fixtures.
Import Geometry Packing.
Local Open Scope Q_scope.

Definition pt (a b : Z) : Point := mkPoint2 (inject_Z a) (inject_Z b).

(** [PackingCandidateFixture::triangle]. *)
Definition triangle : ConvexPolygon Q := ConvexPolygon_new [pt 0 0; pt 50 0; pt 25 50].

(** [triangle.translate(50, 0)]: a translation only adds to each
    coordinate, which is exact here. *)
Definition triangle_moved : ConvexPolygon Q := ConvexPolygon_new [pt 50 0; pt 100 0; pt 75 50].

(** [ComputeScoreDouble]: [packed_objects({triangle, triangle.translate(50, 0)})]. *)
Definition double_objects : list (ConvexPolygon Q) := [triangle; triangle_moved].

Definition double_parent : PackingCandidate :=
  PackingCandidate_new double_objects triangle None.

Definition double_child : PackingCandidate :=
  PackingCandidate_new double_objects triangle_moved (Some double_parent).

(** The score as the documentation describes it: the summed area of the
    polygons on the parent chain (from [pack_here] up), against the area of
    the hull of those polygons. *)
Definition score_as_documented (pack_here : ConvexPolygon Q) (parent : option PackingCandidate)
    : option Q :=
  let packed_so_far := pack_here :: parent_chain parent in
  let covered := fold_left (fun a p => a + area (vertices p)) packed_so_far 0 in
  match convex_hull_polygons packed_so_far with
  | None => None
  | Some hull =>
    let hull_area := area (vertices hull) in
    if Qle_bool hull_area 0 then Some 0 else Some (1 - covered / hull_area)
  end.

(** A computed score equals [q] (as a rational number). *)
Definition score_is (s : option Q) (q : Q) : Prop :=
  match s with Some r => r == q | None => False end.

End Fixtures.

(** ** Orders used in the proofs about [gift_wrapping] *)
Module HullOrder.
Import Geometry.
Local Open Scope Q_scope.

(** The cross product of two vectors: [is_left v a b] is
    [cross (a - v) (b - v)]. *)
Definition cross (a b : Point) : Q := x a * y b - y a * x b.

(** Equality of points as [Point2::operator ==] decides it. *)
Definition same_point (a b : Point) : Prop := x a == x b /\ y a == y b.

(** The half-open half plane to the left of direction [d], together with the
    ray pointing backwards along [d]. *)
Definition positive_side (d q : Point) : Prop :=
  0 < cross d q \/ (cross d q == 0 /\ dot d q < 0).

(** Vector [b] "goes right" of vector [a]: clockwise of it, or in the same
    direction and longer ([goes_right] on vectors). *)
Definition goes_right_of (a b : Point) : Prop :=
  cross a b < 0 \/ (cross a b == 0 /\ magnitude2 a < magnitude2 b).

(** The two halves of the plane for the lexicographic order of [lex_less]. *)
Definition lex_positive (q : Point) : Prop := 0 < x q \/ (x q == 0 /\ 0 < y q).
Definition lex_negative (q : Point) : Prop := x q < 0 \/ (x q == 0 /\ y q < 0).

(** The direction in which the walk of [gift_wrapping] leaves its start. *)
Definition down : Point := mkPoint2 0 (-1).

(** [v] sees every other point of [points] on the positive side of [d]. *)
Definition supporting (points : list Point) (v d : Point) : Prop :=
  forall p, In p points -> ~ same_point p v -> positive_side d (point_sub p v).

(** The vertices visited by the [do]-loop of [gift_wrapping]. *)
Definition hull_walk (points : list Point) (k : nat) : Point :=
  Nat.iter k (wrap_next points) (min_element points).

(** The number of points lexicographically above and below [v]. *)
Definition count_above (points : list Point) (v : Point) : nat :=
  length (filter (lex_less v) points).
Definition count_below (points : list Point) (v : Point) : nat :=
  length (filter (fun p => lex_less p v) points).

(** The bound of the walk: at least the number of points while the walk
    climbs to the right, below it once the walk has turned back. *)
Definition walk_measure (points : list Point) (v d : Point) (m : nat) : Prop :=
  ((same_point v (min_element points) \/ lex_positive d)
   /\ m = (length points + count_above points v)%nat)
  \/ (lex_negative d /\ ~ same_point v (min_element points) /\ m = count_below points v).

End HullOrder.

(** * Properties *)

(** ** Vector facts behind [gift_wrapping] *)
Module WrapVectors.
Import Geometry HullOrder.
Local Open Scope Q_scope.

(** Case lemmas on the coordinates [t] (along [d]) and [s] (left of [d]). *)
Lemma core_strict_strict : forall A B C N sa sb sc ta tb tc,
  0 < N ->
  (0 < sa \/ (sa == 0 /\ ta < 0)) -> (0 < sb \/ (sb == 0 /\ tb < 0)) ->
  (0 < sc \/ (sc == 0 /\ tc < 0)) ->
  A < 0 -> B < 0 ->
  A * sc + B * sa - C * sb == 0 -> N * A == ta * sb - sa * tb -> N * B == tb * sc - sb * tc ->
  C < 0.
Proof.
  intros A B C N sa sb sc ta tb tc HN Ha Hb Hc HA HB Hpl HAb HBc.
  destruct Hb as [Hb|[Hb Tb]].
  - assert (Hsa : 0 <= sa) by (destruct Ha as [Ha|[Ha _]]; lra).
    assert (Hsc : 0 <= sc) by (destruct Hc as [Hc|[Hc _]]; lra).
    destruct (Qlt_le_dec C 0) as [HC|HC]; [exact HC|exfalso].
    assert (P1 : A * sc <= 0) by nra.
    assert (P2 : B * sa <= 0) by nra.
    assert (P3 : 0 <= C * sb) by nra.
    assert (Esc : sc == 0) by nra.
    assert (Esa : sa == 0) by nra.
    destruct Hc as [Hc|[_ Tc]]; [lra|].
    rewrite Esc in HBc. nra.
  - destruct Ha as [Ha|[Ha Ta]].
    + rewrite Hb in HAb. nra.
    + rewrite Hb, Ha in HAb. nra.
Qed.

Lemma core_strict_parallel : forall A B C N sa sb sc ta tb tc,
  0 < N ->
  (0 < sa \/ (sa == 0 /\ ta < 0)) -> (0 < sb \/ (sb == 0 /\ tb < 0)) ->
  (0 < sc \/ (sc == 0 /\ tc < 0)) ->
  A < 0 -> B == 0 ->
  A * sc + B * sa - C * sb == 0 -> N * A == ta * sb - sa * tb -> N * B == tb * sc - sb * tc ->
  C < 0.
Proof.
  intros A B C N sa sb sc ta tb tc HN Ha Hb Hc HA HB Hpl HAb HBc.
  rewrite HB in Hpl, HBc.
  destruct Hb as [Hb|[Hb Tb]].
  - destruct Hc as [Hc|[Hc Tc]].
    + nra.
    + rewrite Hc in HBc. nra.
  - rewrite Hb in HAb. destruct Ha as [Ha|[Ha Ta]].
    + nra.
    + rewrite Ha in HAb. nra.
Qed.

Lemma core_parallel_strict : forall A B C N sa sb sc ta tb tc,
  0 < N ->
  (0 < sa \/ (sa == 0 /\ ta < 0)) -> (0 < sb \/ (sb == 0 /\ tb < 0)) ->
  (0 < sc \/ (sc == 0 /\ tc < 0)) ->
  A == 0 -> B < 0 ->
  A * sc + B * sa - C * sb == 0 -> A * tc + B * ta - C * tb == 0 ->
  N * A == ta * sb - sa * tb -> N * B == tb * sc - sb * tc ->
  C < 0.
Proof.
  intros A B C N sa sb sc ta tb tc HN Ha Hb Hc HA HB Hpl Hplt HAb HBc.
  rewrite HA in Hpl, Hplt, HAb.
  destruct Hb as [Hb|[Hb Tb]].
  - destruct Ha as [Ha|[Ha Ta]].
    + nra.
    + rewrite Ha in HAb. nra.
  - rewrite Hb in HAb, HBc, Hpl.
    assert (Esa : sa == 0) by nra.
    destruct Ha as [Ha|[_ Ta]]; [lra|].
    nra.
Qed.

Lemma core_parallel_parallel : forall C N sb tb nb,
  0 < N -> 0 < nb ->
  C * sb == 0 -> C * tb == 0 -> N * nb == tb * tb + sb * sb ->
  C == 0.
Proof.
  intros C N sb tb nb HN Hnb Hsb Htb Hn.
  destruct (Qeq_dec C 0) as [E|E]; [exact E|exfalso].
  assert (Esb : sb == 0).
  { destruct (Qmult_integral _ _ Hsb) as [H|H]; [contradiction|exact H]. }
  assert (Etb : tb == 0).
  { destruct (Qmult_integral _ _ Htb) as [H|H]; [contradiction|exact H]. }
  rewrite Esb, Etb in Hn. nra.
Qed.

Lemma sq_zero : forall a b, a * a + b * b <= 0 -> a == 0 /\ b == 0.
Proof.
  intros a b H.
  assert (Ha : 0 <= a * a) by nra.
  assert (Hb : 0 <= b * b) by nra.
  assert (Ea : a * a == 0) by lra.
  assert (Eb : b * b == 0) by lra.
  split.
  - destruct (Qmult_integral _ _ Ea) as [E|E]; exact E.
  - destruct (Qmult_integral _ _ Eb) as [E|E]; exact E.
Qed.

Lemma norm_pos : forall b, ~ (x b == 0 /\ y b == 0) -> 0 < magnitude2 b.
Proof.
  intros b H. destruct (Qlt_le_dec 0 (magnitude2 b)) as [L|L]; [exact L|].
  exfalso. apply H. apply sq_zero. exact L.
Qed.

Lemma norm_nonneg : forall b, 0 <= magnitude2 b.
Proof. intros [bx by']. unfold magnitude2; simpl. nra. Qed.

Lemma side_norm : forall d q, positive_side d q -> 0 < magnitude2 d.
Proof.
  intros d q H. apply norm_pos. intros [E1 E2].
  unfold positive_side, cross, dot in H. rewrite E1, E2 in H.
  destruct H as [H|[_ H]]; ring_simplify in H; lra.
Qed.

Lemma cross_compat : forall a a' b b',
  same_point a a' -> same_point b b' -> cross a b == cross a' b'.
Proof.
  intros a a' b b' [E1 E2] [E3 E4]. unfold cross. rewrite E1, E2, E3, E4. reflexivity.
Qed.

Lemma dot_compat : forall a a' b b',
  same_point a a' -> same_point b b' -> dot a b == dot a' b'.
Proof.
  intros a a' b b' [E1 E2] [E3 E4]. unfold dot. rewrite E1, E2, E3, E4. reflexivity.
Qed.

Lemma magnitude2_compat : forall a a', same_point a a' -> magnitude2 a == magnitude2 a'.
Proof. intros a a' [E1 E2]. unfold magnitude2. rewrite E1, E2. reflexivity. Qed.

Lemma goes_right_of_compat : forall a a' b b',
  same_point a a' -> same_point b b' -> goes_right_of a b -> goes_right_of a' b'.
Proof.
  intros a a' b b' Ea Eb. unfold goes_right_of.
  rewrite (cross_compat _ _ _ _ Ea Eb), (magnitude2_compat _ _ Ea), (magnitude2_compat _ _ Eb).
  tauto.
Qed.

Lemma positive_side_compat : forall d q q',
  same_point q q' -> positive_side d q -> positive_side d q'.
Proof.
  intros d q q' Eq. assert (Ed : same_point d d) by (split; reflexivity).
  unfold positive_side. rewrite (cross_compat _ _ _ _ Ed Eq), (dot_compat _ _ _ _ Ed Eq).
  tauto.
Qed.

Lemma goes_right_of_irrefl : forall a, ~ goes_right_of a a.
Proof.
  intros a. unfold goes_right_of, cross.
  assert (E : x a * y a - y a * x a == 0) by ring. rewrite E. lra.
Qed.

(** Nothing goes right of a vector to the zero vector. *)
Lemma goes_right_of_nonzero : forall a b, goes_right_of a b -> ~ (x b == 0 /\ y b == 0).
Proof.
  intros a b H [E1 E2]. unfold goes_right_of, cross, magnitude2 in H.
  rewrite E1, E2 in H. pose proof (norm_nonneg a) as Na. unfold magnitude2 in Na.
  destruct H as [H|[_ H]]; ring_simplify in H; lra.
Qed.

(** Every non-zero vector goes right of the zero vector. *)
Lemma goes_right_of_zero : forall a b,
  x a == 0 -> y a == 0 -> ~ (x b == 0 /\ y b == 0) -> goes_right_of a b.
Proof.
  intros a b E1 E2 Hb. pose proof (norm_pos b Hb) as Nb.
  unfold goes_right_of, cross. right. unfold magnitude2 in *. rewrite E1, E2.
  split; ring_simplify; lra.
Qed.

(** The four identities between the cross products of three vectors and
    their coordinates along and across a fourth one. *)
Lemma coords_identities : forall d a b c,
  cross a b * cross d c + cross b c * cross d a - cross a c * cross d b == 0 /\
  cross a b * dot d c + cross b c * dot d a - cross a c * dot d b == 0 /\
  magnitude2 d * cross a b == dot d a * cross d b - cross d a * dot d b /\
  magnitude2 d * dot a b == dot d a * dot d b + cross d a * cross d b.
Proof.
  intros d a b c. unfold cross, dot, magnitude2.
  repeat split; ring.
Qed.

Lemma lagrange : forall a b,
  dot a b * dot a b + cross a b * cross a b == magnitude2 a * magnitude2 b.
Proof. intros a b. unfold cross, dot, magnitude2. ring. Qed.

(** In the half plane, [goes_right_of] is transitive. *)
Lemma goes_right_of_trans : forall d a b c,
  positive_side d a -> positive_side d b -> positive_side d c ->
  goes_right_of a b -> goes_right_of b c -> goes_right_of a c.
Proof.
  intros d a b c Pa Pb Pc Hab Hbc.
  pose proof (side_norm _ _ Pa) as HN.
  destruct (coords_identities d a b c) as [Hpl [Hplt [HAb _]]].
  destruct (coords_identities d b c a) as [_ [_ [HBc _]]].
  destruct (coords_identities d b b b) as [_ [_ [_ Hnb]]].
  assert (Hn : magnitude2 d * magnitude2 b == dot d b * dot d b + cross d b * cross d b).
  { rewrite <- Hnb. unfold magnitude2, dot. ring. }
  pose proof (norm_nonneg a) as Na.
  unfold positive_side in Pa, Pb, Pc. unfold goes_right_of in *.
  destruct Hab as [HA|[HA Ma]]; destruct Hbc as [HB|[HB Mb]].
  - left. exact (core_strict_strict _ _ _ _ _ _ _ _ _ _ HN Pa Pb Pc HA HB Hpl HAb HBc).
  - left. exact (core_strict_parallel _ _ _ _ _ _ _ _ _ _ HN Pa Pb Pc HA HB Hpl HAb HBc).
  - left. exact (core_parallel_strict _ _ _ _ _ _ _ _ _ _ HN Pa Pb Pc HA HB Hpl Hplt HAb HBc).
  - right. split; [|lra].
    rewrite HA, HB in Hpl, Hplt.
    apply (core_parallel_parallel _ (magnitude2 d) (cross d b) (dot d b) (magnitude2 b)); 
      [exact HN | lra | lra | lra | exact Hn].
Qed.

Lemma core_dot_pos : forall N D sa sb ta tb,
  0 < N -> (0 < sa \/ (sa == 0 /\ ta < 0)) -> (0 < sb \/ (sb == 0 /\ tb < 0)) ->
  N * D == ta * tb + sa * sb -> ta * sb - sa * tb == 0 -> 0 < D.
Proof.
  intros N D sa sb ta tb HN Ha Hb HD Hc.
  assert (HND : 0 < N * D).
  { destruct Ha as [Ha|[Ha Ta]]; destruct Hb as [Hb|[Hb Tb]].
    - assert (E : ta * sb == sa * tb) by lra.
      assert (F : (ta * tb) * (sa * sb) == (ta * sb) * (sa * tb)) by ring.
      rewrite E in F.
      assert (G : 0 < sa * sb) by nra.
      assert (K : 0 <= (sa * tb) * (sa * tb)) by nra.
      assert (L : 0 < (ta * tb + sa * sb) * (sa * sb)) by nra.
      nra.
    - rewrite Hb in Hc. nra.
    - rewrite Ha in Hc. nra.
    - rewrite Ha, Hb in HD. nra. }
  nra.
Qed.

(** Two different vectors of the half plane are ordered by [goes_right_of]. *)
Lemma goes_right_of_total : forall d a b,
  positive_side d a -> positive_side d b -> ~ same_point a b ->
  goes_right_of a b \/ goes_right_of b a.
Proof.
  intros d a b Pa Pb Hne.
  pose proof (side_norm _ _ Pa) as HN.
  assert (Eba : cross b a == - cross a b) by (unfold cross; ring).
  unfold goes_right_of.
  destruct (Q_dec (cross a b) 0) as [[Hl|Hg]|He].
  - left. left. exact Hl.
  - right. left. lra.
  - destruct (Q_dec (magnitude2 a) (magnitude2 b)) as [[Ml|Mg]|Me].
    + left. right. split; assumption.
    + right. right. split; [lra | exact Mg].
    + exfalso. apply Hne.
      destruct (coords_identities d a b a) as [_ [_ [HAb HDab]]].
      assert (HD : 0 < dot a b).
      { apply (core_dot_pos (magnitude2 d) (dot a b) (cross d a) (cross d b) (dot d a) (dot d b));
          [exact HN | exact Pa | exact Pb | exact HDab | rewrite He in HAb; lra]. }
      pose proof (lagrange a b) as Lg. rewrite He, <- Me in Lg.
      pose proof (norm_nonneg a) as Na.
      assert (Edot : dot a b == magnitude2 a).
      { assert (F : (dot a b - magnitude2 a) * (dot a b + magnitude2 a) == 0) by
          (ring_simplify; ring_simplify in Lg; lra).
        destruct (Qmult_integral _ _ F) as [G|G]; lra. }
      assert (Z : (x a - x b) * (x a - x b) + (y a - y b) * (y a - y b) <= 0).
      { assert (W : (x a - x b) * (x a - x b) + (y a - y b) * (y a - y b)
                    == magnitude2 a - 2 * dot a b + magnitude2 b)
          by (unfold magnitude2, dot; ring).
        rewrite W. lra. }
      destruct (sq_zero _ _ Z) as [Zx Zy]. split; lra.
Qed.

(** The next vertex sees the points that do not go right of it on its
    positive side. *)
Lemma goes_right_of_next : forall a b, goes_right_of a b -> positive_side b (point_sub a b).
Proof.
  intros a b H.
  assert (E1 : cross b (point_sub a b) == - cross a b) by (unfold cross, point_sub; simpl; ring).
  assert (E2 : dot b (point_sub a b) == dot a b - magnitude2 b)
    by (unfold dot, magnitude2, point_sub; simpl; ring).
  pose proof (lagrange a b) as Lg. pose proof (norm_nonneg a) as Na.
  unfold positive_side. rewrite E1, E2.
  destruct H as [H|[H M]]; [left; lra|right].
  split; [rewrite H; reflexivity|].
  rewrite H in Lg.
  destruct (Qlt_le_dec (dot a b) (magnitude2 b)) as [L|L]; [lra|exfalso].
  nra.
Qed.

(** Once the walk heads lexicographically down, no point lexicographically
    above the current one goes left of a point below it. *)
Lemma half_turn : forall d a c,
  lex_negative d -> lex_positive a -> lex_negative c ->
  positive_side d a -> positive_side d c -> cross a c < 0.
Proof.
  intros [dx dy] [ax ay] [cx cy].
  unfold lex_negative, lex_positive, positive_side, cross, dot; simpl.
  intros Hd Ha Hc Pa Pc.
  assert (HN : 0 < dx * dx + dy * dy) by (destruct Hd as [Hd|[Hd1 Hd2]]; nra).
  assert (Hcb : ~ (dx * cy - dy * cx == 0 /\ dx * cx + dy * cy < 0)).
  { intros [S T].
    assert (Hcx : (dx * dx + dy * dy) * cx == dx * (dx * cx + dy * cy) - dy * (dx * cy - dy * cx)) by ring.
    assert (Hcy : (dx * dx + dy * dy) * cy == dy * (dx * cx + dy * cy) + dx * (dx * cy - dy * cx)) by ring.
    rewrite S in Hcx, Hcy.
    destruct Hd as [Hd|[Hd1 Hd2]]; destruct Hc as [Hc|[Hc1 Hc2]]; nra. }
  destruct Pc as [Pc|Pc]; [|exfalso; exact (Hcb Pc)].
  destruct Hd as [Hd|[Hd1 Hd2]]; destruct Ha as [Ha|[Ha1 Ha2]]; destruct Hc as [Hc|[Hc1 Hc2]];
    destruct Pa as [Pa|[Pa1 Pa2]]; try nra.
Qed.

(** ** The comparisons of the code as propositions *)

Lemma Qlt_bool_iff : forall a b, Qlt_bool a b = true <-> a < b.
Proof.
  intros a b. unfold Qlt_bool. rewrite negb_true_iff. split; intro H.
  - apply Qnot_le_lt. intro H'. apply Qle_bool_iff in H'. congruence.
  - destruct (Qle_bool b a) eqn:E; [apply Qle_bool_iff in E; lra | reflexivity].
Qed.

Lemma point_eqb_iff : forall a b, point_eqb a b = true <-> same_point a b.
Proof.
  intros a b. unfold point_eqb, same_point. rewrite andb_true_iff, !Qeq_bool_iff. tauto.
Qed.

Lemma point_eqb_false : forall a b, point_eqb a b = false <-> ~ same_point a b.
Proof.
  intros a b. rewrite <- point_eqb_iff. destruct (point_eqb a b); split; congruence.
Qed.

Lemma same_point_refl : forall a, same_point a a.
Proof. intros a. split; reflexivity. Qed.

Lemma same_point_sym : forall a b, same_point a b -> same_point b a.
Proof. intros a b [E1 E2]. split; symmetry; assumption. Qed.

Lemma same_point_trans : forall a b c, same_point a b -> same_point b c -> same_point a c.
Proof. intros a b c [E1 E2] [E3 E4]. split; [rewrite E1; exact E3 | rewrite E2; exact E4]. Qed.

Lemma same_point_dec : forall a b, {same_point a b} + {~ same_point a b}.
Proof.
  intros a b. destruct (point_eqb a b) eqn:E.
  - left. apply point_eqb_iff. exact E.
  - right. apply point_eqb_false. exact E.
Qed.

Lemma lex_less_iff : forall a b,
  lex_less a b = true <-> x a < x b \/ (x a == x b /\ y a < y b).
Proof.
  intros a b. unfold lex_less. rewrite orb_true_iff, andb_true_iff, !Qlt_bool_iff, Qeq_bool_iff.
  tauto.
Qed.

Lemma lex_less_positive : forall a b, lex_less a b = true <-> lex_positive (point_sub b a).
Proof.
  intros a b. rewrite lex_less_iff. unfold lex_positive, point_sub; simpl.
  split; (intros [H|[H1 H2]]; [left; lra | right; split; lra]).
Qed.

Lemma lex_less_negative : forall a b, lex_less b a = true <-> lex_negative (point_sub b a).
Proof.
  intros a b. rewrite lex_less_iff. unfold lex_negative, point_sub; simpl.
  split; (intros [H|[H1 H2]]; [left; lra | right; split; lra]).
Qed.

Lemma lex_less_irrefl : forall a, lex_less a a = false.
Proof.
  intros a. destruct (lex_less a a) eqn:E; [|reflexivity].
  apply lex_less_iff in E. lra.
Qed.

Lemma lex_less_trans : forall a b c,
  lex_less a b = true -> lex_less b c = true -> lex_less a c = true.
Proof.
  intros a b c H1 H2. rewrite lex_less_iff in *.
  destruct H1 as [H1|[H1 H1']]; destruct H2 as [H2|[H2 H2']]; lra.
Qed.

Lemma lex_less_total : forall a b,
  lex_less a b = false -> lex_less b a = false -> same_point a b.
Proof.
  intros a b H1 H2.
  assert (N1 : ~ (x a < x b \/ (x a == x b /\ y a < y b)))
    by (rewrite <- lex_less_iff; congruence).
  assert (N2 : ~ (x b < x a \/ (x b == x a /\ y b < y a)))
    by (rewrite <- lex_less_iff; congruence).
  destruct (Q_dec (x a) (x b)) as [[L|L]|L]; [tauto | tauto |].
  split; [exact L|].
  destruct (Q_dec (y a) (y b)) as [[M|M]|M]; [tauto | |exact M].
  exfalso. apply N2. right. split; [symmetry; exact L | exact M].
Qed.

End WrapVectors.

(** ** The scan of [gift_wrapping] for the next vertex *)
Module WrapScan.
Import Geometry HullOrder WrapVectors.
Local Open Scope Q_scope.

Lemma sub_zero : forall a v,
  same_point a v <-> (x (point_sub a v) == 0 /\ y (point_sub a v) == 0).
Proof. intros a v. unfold same_point, point_sub; simpl. split; intros [E1 E2]; split; lra. Qed.

Lemma sub_compat : forall a a' b b',
  same_point a a' -> same_point b b' -> same_point (point_sub a b) (point_sub a' b').
Proof.
  intros a a' b b' [E1 E2] [E3 E4]. unfold point_sub; split; simpl.
  - rewrite E1, E3. reflexivity.
  - rewrite E2, E4. reflexivity.
Qed.

Lemma sub_cancel : forall a b v,
  same_point (point_sub a v) (point_sub b v) -> same_point a b.
Proof. intros a b v [E1 E2]. simpl in E1, E2. split; lra. Qed.

Lemma goes_right_iff : forall v a b,
  goes_right v a b = true <-> goes_right_of (point_sub a v) (point_sub b v).
Proof.
  intros v a b. unfold goes_right, goes_right_of, is_left, cross, magnitude2, point_sub; simpl.
  rewrite orb_true_iff, andb_true_iff, !Qlt_bool_iff, Qeq_bool_iff. tauto.
Qed.

Lemma wrap_update_eq : forall v b p,
  wrap_update v b p = if goes_right v b p then p else b.
Proof.
  intros v b p. unfold wrap_update, goes_right.
  destruct (Qlt_bool (is_left v b p) 0), (Qeq_bool (is_left v b p) 0),
    (Qlt_bool (magnitude2 (point_sub b v)) (magnitude2 (point_sub p v))); reflexivity.
Qed.

Lemma goes_right_compat : forall v v' a b,
  same_point v v' -> goes_right v a b = goes_right v' a b.
Proof.
  intros v v' a b E. apply Bool.eq_iff_eq_true. rewrite !goes_right_iff.
  split; apply goes_right_of_compat; apply sub_compat; auto using same_point_refl, same_point_sym.
Qed.

Lemma point_eqb_compat : forall c u u',
  same_point u u' -> point_eqb c u = point_eqb c u'.
Proof.
  intros c u u' E. apply Bool.eq_iff_eq_true. rewrite !point_eqb_iff.
  split; intro H; eauto using same_point_trans, same_point_sym.
Qed.

(** Points that coincide with [v] never replace [best]. *)
Lemma fold_all_same : forall v L b,
  (forall p, In p L -> same_point p v) -> fold_left (wrap_update v) L b = b.
Proof.
  intros v L. induction L as [|a L IH]; intros b HL; simpl; [reflexivity|].
  rewrite wrap_update_eq.
  destruct (goes_right v b a) eqn:G.
  - exfalso. apply goes_right_iff in G. apply goes_right_of_nonzero in G.
    apply G. apply sub_zero. apply HL. left. reflexivity.
  - apply IH. intros p Hp. apply HL. right. exact Hp.
Qed.

Lemma find_all_same : forall v L,
  (forall p, In p L -> same_point p v) -> find (fun c => negb (point_eqb c v)) L = None.
Proof.
  intros v L HL. destruct (find _ L) as [c|] eqn:F; [|reflexivity].
  apply find_some in F. destruct F as [Hin Hc].
  rewrite negb_true_iff, point_eqb_false in Hc. exfalso. exact (Hc (HL c Hin)).
Qed.

Lemma wrap_next_all_same : forall v L,
  (forall p, In p L -> same_point p v) -> wrap_next L v = v.
Proof.
  intros v L HL. unfold wrap_next, first_other. rewrite find_all_same by exact HL.
  apply fold_all_same. exact HL.
Qed.

Lemma fold_compat : forall v v' L b,
  same_point v v' -> fold_left (wrap_update v) L b = fold_left (wrap_update v') L b.
Proof.
  intros v v' L. induction L as [|a L IH]; intros b E; simpl; [reflexivity|].
  rewrite !wrap_update_eq, (goes_right_compat v v' b a E). apply IH. exact E.
Qed.

Lemma find_compat : forall v v' L,
  same_point v v' ->
  find (fun c => negb (point_eqb c v)) L = find (fun c => negb (point_eqb c v')) L.
Proof.
  intros v v' L E. induction L as [|a L IH]; simpl; [reflexivity|].
  rewrite (point_eqb_compat a v v' E). destruct (negb (point_eqb a v')); [reflexivity|exact IH].
Qed.

(** [wrap_next] respects the equality of the code on its [last] argument. *)
Lemma wrap_next_compat : forall L v v',
  same_point v v' -> same_point (wrap_next L v) (wrap_next L v').
Proof.
  intros L v v' E. unfold wrap_next, first_other.
  rewrite (fold_compat v v' L _ E), (find_compat v v' L E).
  destruct (find _ L) as [c|] eqn:F; [apply same_point_refl|].
  assert (HL : forall p, In p L -> same_point p v').
  { intros p Hp. destruct (same_point_dec p v') as [S|S]; [exact S|].
    exfalso. assert (Hn : find (fun c => negb (point_eqb c v')) L <> None).
    { intro F'. pose proof (find_none _ _ F' p Hp) as Hf. simpl in Hf.
      rewrite negb_false_iff, point_eqb_iff in Hf. exact (S Hf). }
    exact (Hn F). }
  rewrite !fold_all_same by exact HL. exact E.
Qed.

Lemma supporting_side : forall points v d p,
  supporting points v d -> In p points -> ~ same_point p v -> positive_side d (point_sub p v).
Proof. intros points v d p H. apply H. Qed.

Lemma not_same_nonzero : forall p v,
  ~ same_point p v -> ~ (x (point_sub p v) == 0 /\ y (point_sub p v) == 0).
Proof. intros p v H Z. apply H. apply sub_zero. exact Z. Qed.

Section Scan.
Variables (points : list Point) (v d : Point).
Hypothesis Hsup : supporting points v d.

(** The scan keeps the point that goes farthest right as seen from [v]. *)
Lemma scan_max : forall L b,
  incl L points -> In b points -> ~ same_point b v ->
  In (fold_left (wrap_update v) L b) points
  /\ ~ same_point (fold_left (wrap_update v) L b) v
  /\ ~ goes_right_of (point_sub (fold_left (wrap_update v) L b) v) (point_sub b v)
  /\ forall p, In p L ->
       ~ goes_right_of (point_sub (fold_left (wrap_update v) L b) v) (point_sub p v).
Proof.
  induction L as [|a L IH]; intros b HL Hb Hbv; simpl.
  - split; [exact Hb|]. split; [exact Hbv|]. split; [apply goes_right_of_irrefl|].
    intros p [].
  - assert (Ha : In a points) by (apply HL; left; reflexivity).
    assert (HL' : incl L points) by (intros q Hq; apply HL; right; exact Hq).
    rewrite wrap_update_eq. destruct (goes_right v b a) eqn:G.
    + apply goes_right_iff in G.
      assert (Hav : ~ same_point a v).
      { intro S. apply (goes_right_of_nonzero _ _ G). apply sub_zero. exact S. }
      destruct (IH a HL' Ha Hav) as [Wp [Wv [Wa WL]]].
      set (w := fold_left (wrap_update v) L a) in *.
      split; [exact Wp|]. split; [exact Wv|]. split.
      * intro Hwb. apply Wa.
        apply (goes_right_of_trans d _ (point_sub b v)); auto.
      * intros p [<-|Hp]; [exact Wa | exact (WL p Hp)].
    + assert (G' : ~ goes_right_of (point_sub b v) (point_sub a v))
        by (rewrite <- goes_right_iff; congruence).
      destruct (IH b HL' Hb Hbv) as [Wp [Wv [Wb WL]]].
      set (w := fold_left (wrap_update v) L b) in *.
      split; [exact Wp|]. split; [exact Wv|]. split; [exact Wb|].
      intros p [<-|Hp]; [|exact (WL p Hp)].
      intro Hwa.
      assert (Hav : ~ same_point a v).
      { intro S. apply (goes_right_of_nonzero _ _ Hwa). apply sub_zero. exact S. }
      destruct (same_point_dec w b) as [E|E].
      * apply G'. apply (goes_right_of_compat (point_sub w v) _ (point_sub a v));
          [apply sub_compat; [exact E | apply same_point_refl] | apply same_point_refl | exact Hwa].
      * destruct (goes_right_of_total d (point_sub w v) (point_sub b v)) as [T|T]; auto.
        -- intro S. apply E. exact (sub_cancel _ _ _ S).
        -- apply G'. apply (goes_right_of_trans d _ (point_sub w v)); auto.
Qed.

Lemma first_other_spec :
  (exists p, In p points /\ ~ same_point p v) ->
  In (first_other points v) points /\ ~ same_point (first_other points v) v.
Proof.
  intros [p [Hp Hpv]]. unfold first_other.
  destruct (find _ points) as [c|] eqn:F.
  - apply find_some in F. destruct F as [Hin Hc].
    rewrite negb_true_iff, point_eqb_false in Hc. split; assumption.
  - exfalso. pose proof (find_none _ _ F p Hp) as Hf. simpl in Hf.
    rewrite negb_false_iff, point_eqb_iff in Hf. exact (Hpv Hf).
Qed.

(** The vertex after [v]: a point of [points], different from [v], that no
    point goes right of. *)
Lemma wrap_next_max :
  (exists p, In p points /\ ~ same_point p v) ->
  In (wrap_next points v) points /\ ~ same_point (wrap_next points v) v
  /\ forall p, In p points ->
       ~ goes_right_of (point_sub (wrap_next points v) v) (point_sub p v).
Proof.
  intros Hex. destruct (first_other_spec Hex) as [Fp Fv].
  destruct (scan_max points (first_other points v) (incl_refl _) Fp Fv) as [Wp [Wv [_ WL]]].
  unfold wrap_next. split; [exact Wp|]. split; [exact Wv|exact WL].
Qed.

(** From the next vertex, every other point lies on the positive side of the
    edge just walked. *)
Lemma wrap_next_supporting :
  (exists p, In p points /\ ~ same_point p v) ->
  supporting points (wrap_next points v) (point_sub (wrap_next points v) v).
Proof.
  intros Hex. destruct (wrap_next_max Hex) as [Wp [Wv WL]].
  set (w := wrap_next points v) in *.
  intros p Hp Hpw.
  assert (G : goes_right_of (point_sub p v) (point_sub w v)).
  { destruct (same_point_dec p v) as [S|S].
    - apply sub_zero in S. destruct S as [S1 S2].
      apply goes_right_of_zero; [exact S1 | exact S2 | apply not_same_nonzero; exact Wv].
    - destruct (goes_right_of_total d (point_sub p v) (point_sub w v)) as [T|T]; auto.
      + intro E. apply Hpw. exact (sub_cancel _ _ _ E).
      + exfalso. exact (WL p Hp T). }
  apply (positive_side_compat _ (point_sub (point_sub p v) (point_sub w v))).
  - unfold point_sub; split; simpl; ring.
  - apply goes_right_of_next. exact G.
Qed.

End Scan.

(** Any sub-list that holds the next vertex gives the same next vertex. *)
Lemma wrap_next_unique : forall points H v d,
  supporting points v d -> incl H points ->
  (exists h, In h H /\ same_point h (wrap_next points v)) ->
  ~ same_point (wrap_next points v) v ->
  same_point (wrap_next H v) (wrap_next points v).
Proof.
  intros points H v d Hsup Hincl [h [Hh Eh]] Hwv.
  assert (HsupH : supporting H v d) by (intros p Hp; apply Hsup; apply Hincl; exact Hp).
  assert (Hhv : ~ same_point h v)
    by (intro S; apply Hwv; eauto using same_point_trans, same_point_sym).
  destruct (wrap_next_max points v d Hsup) as [Pp [Pv PL]].
  { exists h. split; [apply Hincl; exact Hh | exact Hhv]. }
  destruct (wrap_next_max H v d HsupH) as [Hp [Hv HL]].
  { exists h. split; [exact Hh | exact Hhv]. }
  set (wP := wrap_next points v) in *. set (wH := wrap_next H v) in *.
  destruct (same_point_dec wH wP) as [E|E]; [exact E|exfalso].
  destruct (goes_right_of_total d (point_sub wH v) (point_sub wP v)) as [T|T].
  - apply Hsup; [apply Hincl; exact Hp | exact Hv].
  - apply Hsup; [exact Pp | exact Pv].
  - intro S. apply E. exact (sub_cancel _ _ _ S).
  - apply (HL h Hh).
    exact (goes_right_of_compat _ _ _ _ (same_point_refl _)
             (sub_compat _ _ _ _ (same_point_sym _ _ Eh) (same_point_refl v)) T).
  - exact (PL wH (Hincl _ Hp) T).
Qed.

End WrapScan.

(** ** The walk of [gift_wrapping] *)
Module WrapWalk.
Import Geometry HullOrder WrapVectors WrapScan.
Local Open Scope Q_scope.

Lemma lex_less_le_trans : forall a r acc,
  lex_less a r = true -> lex_less acc r = false -> lex_less a acc = true.
Proof.
  intros a r acc H1 H2.
  assert (N2 : ~ (x acc < x r \/ (x acc == x r /\ y acc < y r)))
    by (rewrite <- lex_less_iff; congruence).
  rewrite lex_less_iff in *.
  destruct (Qlt_le_dec (x a) (x acc)) as [L|L]; [left; exact L|]. right.
  destruct H1 as [H1|[H1 H1']]; [exfalso; apply N2; left; lra|].
  destruct (Qlt_le_dec (x acc) (x r)) as [L2|L2]; [exfalso; apply N2; left; exact L2|].
  destruct (Qlt_le_dec (y acc) (y r)) as [L3|L3]; [exfalso; apply N2; right; split; lra|].
  split; lra.
Qed.

Lemma min_fold : forall ps acc,
  let r := fold_left (fun smallest q => if lex_less q smallest then q else smallest) ps acc in
  (r = acc \/ In r ps) /\ lex_less acc r = false /\ forall q, In q ps -> lex_less q r = false.
Proof.
  induction ps as [|a ps IH]; intros acc; simpl.
  - split; [left; reflexivity|]. split; [apply lex_less_irrefl | intros q []].
  - destruct (lex_less a acc) eqn:A; simpl;
      [destruct (IH a) as [R [Ra Rq]] | destruct (IH acc) as [R [Ra Rq]]].
    + split; [right; destruct R as [R|R]; [left; symmetry; exact R | right; exact R]|].
      split.
      * destruct (lex_less acc _) eqn:B; [|reflexivity].
        rewrite (lex_less_trans _ _ _ A B) in Ra. discriminate.
      * intros q [<-|Hq]; [exact Ra | exact (Rq q Hq)].
    + split; [destruct R as [R|R]; [left; exact R | right; right; exact R]|].
      split; [exact Ra|].
      intros q [<-|Hq]; [|exact (Rq q Hq)].
      destruct (lex_less a (fold_left _ ps acc)) eqn:B; [|reflexivity].
      rewrite (lex_less_le_trans _ _ _ B Ra) in A. discriminate.
Qed.

(** [std::min_element] returns a point of the list that no point of the list
    is less than. *)
Lemma min_element_spec : forall L, L <> [] ->
  In (min_element L) L /\ forall q, In q L -> lex_less q (min_element L) = false.
Proof.
  intros [|p ps] Hne; [contradiction|]. unfold min_element.
  destruct (min_fold ps p) as [R [Rp Rq]].
  split.
  - destruct R as [R|R]; [left; symmetry; exact R | right; exact R].
  - intros q [<-|Hq]; [exact Rp | exact (Rq q Hq)].
Qed.

Lemma below_min : forall L p, L <> [] -> In p L -> ~ same_point p (min_element L) ->
  lex_less (min_element L) p = true.
Proof.
  intros L p Hne Hp Hpv. destruct (min_element_spec L Hne) as [_ Hm].
  destruct (lex_less (min_element L) p) eqn:E; [reflexivity|].
  exfalso. apply Hpv. apply lex_less_total; [exact (Hm p Hp) | exact E].
Qed.

(** The walk starts at the lexicographically least point, heading down. *)
Lemma start_supporting : forall L, L <> [] -> supporting L (min_element L) down.
Proof.
  intros L Hne p Hp Hpv.
  pose proof (below_min L p Hne Hp Hpv) as B. apply lex_less_positive in B.
  set (q := point_sub p (min_element L)) in *.
  assert (E1 : cross down q == x q) by (unfold cross, down; simpl; ring).
  assert (E2 : dot down q == - y q) by (unfold dot, down; simpl; ring).
  unfold positive_side. rewrite E1, E2. unfold lex_positive in B.
  destruct B as [B|[B1 B2]]; [left; exact B | right; split; [exact B1 | lra]].
Qed.

Lemma filter_length_mono : forall (f g : Point -> bool) L,
  (forall p, In p L -> f p = true -> g p = true) ->
  (length (filter f L) <= length (filter g L))%nat.
Proof.
  intros f g L. induction L as [|a L IH]; intros Hfg; simpl; [lia|].
  specialize (IH (fun p Hp => Hfg p (or_intror Hp))).
  destruct (f a) eqn:Fa.
  - rewrite (Hfg a (or_introl eq_refl) Fa). simpl. lia.
  - destruct (g a); simpl; lia.
Qed.

Lemma filter_length_strict : forall (f g : Point -> bool) L q,
  (forall p, In p L -> f p = true -> g p = true) ->
  In q L -> g q = true -> f q = false ->
  (length (filter f L) < length (filter g L))%nat.
Proof.
  intros f g L q. induction L as [|a L IH]; intros Hfg Hq Gq Fq; [destruct Hq|].
  pose proof (filter_length_mono f g L (fun p Hp => Hfg p (or_intror Hp))) as Hle.
  simpl. destruct Hq as [<-|Hq].
  - rewrite Fq, Gq. simpl. lia.
  - specialize (IH (fun p Hp => Hfg p (or_intror Hp)) Hq Gq Fq).
    destruct (f a) eqn:Fa.
    + rewrite (Hfg a (or_introl eq_refl) Fa). simpl. lia.
    + destruct (g a); simpl; lia.
Qed.

Lemma filter_length_all : forall (f : Point -> bool) L,
  (length (filter f L) <= length L)%nat.
Proof. intros f L. induction L as [|a L IH]; simpl; [lia|]. destruct (f a); simpl; lia. Qed.

Lemma exists_other_dec : forall L v,
  (exists p, In p L /\ ~ same_point p v) \/ (forall p, In p L -> same_point p v).
Proof.
  intros L v. induction L as [|a L IH].
  - right. intros p [].
  - destruct (same_point_dec a v) as [S|S].
    + destruct IH as [[p [Hp Hpv]]|IH].
      * left. exists p. split; [right; exact Hp | exact Hpv].
      * right. intros p [<-|Hp]; [exact S | exact (IH p Hp)].
    + left. exists a. split; [left; reflexivity | exact S].
Qed.

Lemma count_lt_length : forall (f : Point -> bool) L q,
  In q L -> f q = false -> (length (filter f L) < length L)%nat.
Proof.
  intros f L q Hq Fq.
  pose proof (filter_length_strict f (fun _ => true) L q (fun _ _ _ => eq_refl) Hq eq_refl Fq).
  pose proof (filter_length_all (fun _ => true) L). lia.
Qed.

Section Step.
Variable points : list Point.
Hypothesis Hne : points <> [].

(** One turn of the [do]-loop that does not close the hull keeps [v]
    supporting and decreases the measure. *)
Lemma walk_step : forall v d m,
  In v points -> supporting points v d -> walk_measure points v d m ->
  ~ same_point (wrap_next points v) (min_element points) ->
  In (wrap_next points v) points
  /\ supporting points (wrap_next points v) (point_sub (wrap_next points v) v)
  /\ exists m', (m' < m)%nat
       /\ walk_measure points (wrap_next points v) (point_sub (wrap_next points v) v) m'.
Proof.
  intros v d m Hv Hsup Hm Hret.
  destruct (min_element_spec points Hne) as [Hv0 _].
  set (v0 := min_element points) in *.
  assert (Hex : exists p, In p points /\ ~ same_point p v).
  { destruct (same_point_dec v v0) as [S|S].
    - destruct (exists_other_dec points v) as [E|E]; [exact E|].
      exfalso. apply Hret. rewrite (wrap_next_all_same v points E). exact S.
    - exists v0. split; [exact Hv0|]. intro S'. apply S. apply same_point_sym. exact S'. }
  destruct (wrap_next_max points v d Hsup Hex) as [Wp [Wv WL]].
  pose proof (wrap_next_supporting points v d Hsup Hex) as Wsup.
  set (w := wrap_next points v) in *.
  split; [exact Wp|]. split; [exact Wsup|].
  assert (Wlt : lex_less v w = false -> lex_less w v = true).
  { intro L. destruct (lex_less w v) eqn:L'; [reflexivity|].
    exfalso. apply Wv. apply lex_less_total; assumption. }
  assert (Wself : lex_less w w = false) by apply lex_less_irrefl.
  destruct Hm as [[Hlow Hm]|[Hneg [Hvv0 Hm]]].
  - destruct (lex_less v w) eqn:L.
    + exists (length points + count_above points w)%nat. split.
      * rewrite Hm. unfold count_above.
        pose proof (filter_length_strict (lex_less w) (lex_less v) points w
                      (fun p _ Hp => lex_less_trans _ _ _ L Hp) Wp L Wself). lia.
      * left. split; [right; apply lex_less_positive; exact L | reflexivity].
    + exists (count_below points w). split.
      * rewrite Hm. unfold count_below.
        pose proof (count_lt_length (fun p => lex_less p w) points w Wp Wself). lia.
      * right. split; [apply lex_less_negative; exact (Wlt eq_refl)|].
        split; [exact Hret | reflexivity].
  - assert (L : lex_less w v = true).
    { destruct (lex_less v w) eqn:L2; [|exact (Wlt eq_refl)].
      exfalso.
      assert (Hv0v : ~ same_point v0 v) by (intro S; apply Hvv0; apply same_point_sym; exact S).
      assert (Hc : lex_negative (point_sub v0 v)).
      { apply lex_less_negative. apply below_min; [exact Hne | exact Hv | exact Hvv0]. }
      pose proof (half_turn d (point_sub w v) (point_sub v0 v) Hneg
                    (proj1 (lex_less_positive v w) L2) Hc
                    (Hsup w Wp Wv) (Hsup v0 Hv0 Hv0v)) as C.
      apply (WL v0 Hv0). left. exact C. }
    exists (count_below points w). split.
    + rewrite Hm. unfold count_below.
      apply (filter_length_strict _ _ points w); [|exact Wp|exact L|exact Wself].
      intros p _ Hp. exact (lex_less_trans _ _ _ Hp L).
    + right. split; [apply lex_less_negative; exact L|].
      split; [exact Hret | reflexivity].
Qed.

(** As long as the walk has not come back to its start, it stays on points
    of the list, at supporting vertices, and the measure bounds its length. *)
Lemma walk_invariant : forall k,
  (forall j, (1 <= j <= k)%nat -> ~ same_point (hull_walk points j) (min_element points)) ->
  In (hull_walk points k) points
  /\ exists d m, supporting points (hull_walk points k) d
       /\ walk_measure points (hull_walk points k) d m /\ (m + k < 2 * length points)%nat.
Proof.
  destruct (min_element_spec points Hne) as [Hv0 _].
  induction k as [|k IH]; intros Hfirst.
  - split; [exact Hv0|]. exists down, (length points + count_above points (min_element points))%nat.
    split; [apply start_supporting; exact Hne|]. split.
    + left. split; [left; apply same_point_refl | reflexivity].
    + unfold count_above.
      pose proof (count_lt_length (lex_less (min_element points)) points _ Hv0
                    (lex_less_irrefl _)). lia.
  - destruct IH as [Hin [d [m [Hsup [Hm Hb]]]]].
    { intros j Hj. apply Hfirst. lia. }
    destruct (walk_step (hull_walk points k) d m Hin Hsup Hm) as [Wp [Wsup [m' [Hlt Hm']]]].
    { exact (Hfirst (S k) ltac:(lia)). }
    split; [exact Wp|].
    exists (point_sub (wrap_next points (hull_walk points k)) (hull_walk points k)), m'.
    split; [exact Wsup|]. split; [exact Hm'|]. lia.
Qed.

Lemma first_true : forall (f : nat -> bool) N,
  (forall j, (j < N)%nat -> f j = false)
  \/ exists n, (n < N)%nat /\ f n = true /\ forall j, (j < n)%nat -> f j = false.
Proof.
  intros f N. induction N as [|N IH].
  - left. intros j Hj. lia.
  - destruct IH as [IH|[n [Hn [Fn Hb]]]].
    + destruct (f N) eqn:F.
      * right. exists N. split; [lia|]. split; [exact F | exact IH].
      * left. intros j Hj. destruct (Nat.eq_dec j N) as [->|E]; [exact F|]. apply IH. lia.
    + right. exists n. split; [lia|]. split; [exact Fn | exact Hb].
Qed.

(** The walk comes back to its start within twice the number of points. *)
Lemma walk_returns : exists n,
  (1 <= n <= 2 * length points)%nat
  /\ same_point (hull_walk points n) (min_element points)
  /\ forall j, (1 <= j < n)%nat -> ~ same_point (hull_walk points j) (min_element points).
Proof.
  destruct (first_true (fun j => point_eqb (hull_walk points (S j)) (min_element points))
                       (2 * length points)) as [A|[n [Hn [Fn Hb]]]].
  - exfalso.
    destruct (walk_invariant (2 * length points)) as [_ [d [m [_ [_ Hb]]]]]; [|lia].
    intros j Hj. apply point_eqb_false.
    replace j with (S (j - 1)) by lia. apply A. lia.
  - exists (S n). split; [lia|]. split; [apply point_eqb_iff; exact Fn|].
    intros j Hj. apply point_eqb_false.
    replace j with (S (j - 1)) by lia. apply Hb. lia.
Qed.

End Step.

(** The [do]-loop run on any list returns the walk up to its first return. *)
Lemma wrap_loop_walk : forall L s0 n,
  (1 <= n)%nat ->
  same_point (Nat.iter n (wrap_next L) s0) s0 ->
  (forall j, (1 <= j < n)%nat -> ~ same_point (Nat.iter j (wrap_next L) s0) s0) ->
  forall fuel k, (k < n)%nat -> (n - k <= fuel)%nat ->
  wrap_loop fuel L (Nat.iter k (wrap_next L) s0)
            (map (fun j => Nat.iter j (wrap_next L) s0) (seq 0 k))
  = Some (map (fun j => Nat.iter j (wrap_next L) s0) (seq 0 n)).
Proof.
  intros L s0 n Hn Hret Hfirst fuel. induction fuel as [|fuel IH]; intros k Hk Hf; [lia|].
  cbn [wrap_loop].
  replace (map (fun j => Nat.iter j (wrap_next L) s0) (seq 0 k) ++ [Nat.iter k (wrap_next L) s0])
    with (map (fun j => Nat.iter j (wrap_next L) s0) (seq 0 (S k)))
    by (rewrite seq_S, map_app; reflexivity).
  change (vertex_at (map (fun j => Nat.iter j (wrap_next L) s0) (seq 0 (S k))) 0) with s0.
  change (wrap_next L (Nat.iter k (wrap_next L) s0)) with (Nat.iter (S k) (wrap_next L) s0).
  destruct (Nat.eq_dec (S k) n) as [E|E].
  - subst n. rewrite (proj2 (point_eqb_iff _ _) Hret). reflexivity.
  - rewrite (proj2 (point_eqb_false _ _) (Hfirst (S k) ltac:(lia))). apply IH; lia.
Qed.

Lemma vertex_at_map_seq : forall (g : nat -> Point) n i,
  (i < n)%nat -> vertex_at (map g (seq 0 n)) i = g i.
Proof.
  intros g n i Hi. unfold vertex_at.
  rewrite nth_indep with (d' := g 0%nat) by (rewrite length_map, length_seq; exact Hi).
  rewrite map_nth, seq_nth by exact Hi. reflexivity.
Qed.

(** Lists equal point by point are equal polygons. *)
Lemma poly_eq_pointwise : forall vs ws,
  length vs = length ws ->
  (forall i, (i < length vs)%nat -> same_point (vertex_at vs i) (vertex_at ws i)) ->
  poly_eq vs ws = true.
Proof.
  intros vs ws E Hp. unfold poly_eq. cbv zeta.
  rewrite E, Nat.eqb_refl. simpl negb. cbv iota.
  destruct (length ws =? 0)%nat eqn:Z; [reflexivity|].
  apply Nat.eqb_neq in Z.
  apply existsb_exists. exists 0%nat. split; [apply in_seq; lia|].
  apply forallb_forall. intros i Hi. apply in_seq in Hi.
  rewrite Nat.add_0_r, Nat.mod_small by lia.
  apply point_eqb_iff. apply Hp. lia.
Qed.

Lemma poly_eq_refl : forall vs, poly_eq vs vs = true.
Proof. intros vs. apply poly_eq_pointwise; [reflexivity | intros; apply same_point_refl]. Qed.

Lemma gift_wrapping_walk : forall points n,
  (length points <=? 2)%nat = false ->
  (1 <= n <= 2 * length points)%nat ->
  same_point (hull_walk points n) (min_element points) ->
  (forall j, (1 <= j < n)%nat -> ~ same_point (hull_walk points j) (min_element points)) ->
  gift_wrapping points = Some (ConvexPolygon_new (map (hull_walk points) (seq 0 n))).
Proof.
  intros points n Hle Hn Hret Hfirst. unfold gift_wrapping. rewrite Hle.
  change (wrap_loop (wrap_fuel points) points (min_element points) [])
    with (wrap_loop (wrap_fuel points) points (Nat.iter 0 (wrap_next points) (min_element points))
            (map (fun j => Nat.iter j (wrap_next points) (min_element points)) (seq 0 0))).
  rewrite (wrap_loop_walk points (min_element points) n ltac:(lia) Hret Hfirst
             (wrap_fuel points) 0 ltac:(lia) ltac:(unfold wrap_fuel; lia)).
  reflexivity.
Qed.

(** ** The second run of [gift_wrapping], on the vertices of the first *)
Section Rerun.
Variables (points : list Point) (n : nat).
Hypothesis Hne : points <> [].
Hypothesis Hn : (2 <= n)%nat.
Hypothesis Hret : same_point (hull_walk points n) (min_element points).
Hypothesis Hfirst :
  forall j, (1 <= j < n)%nat -> ~ same_point (hull_walk points j) (min_element points).

Lemma walk_in : forall k, (k < n)%nat ->
  In (hull_walk points k) points /\ exists d, supporting points (hull_walk points k) d.
Proof.
  intros k Hk.
  destruct (walk_invariant points Hne k) as [Hin [d [m [Hsup _]]]].
  { intros j Hj. apply Hfirst. lia. }
  split; [exact Hin|]. exists d. exact Hsup.
Qed.

Lemma hull_incl : incl (map (hull_walk points) (seq 0 n)) points.
Proof.
  intros h Hh. apply in_map_iff in Hh. destruct Hh as [k [<- Hk]].
  apply in_seq in Hk. apply (walk_in k). lia.
Qed.

Lemma start_in_hull : In (min_element points) (map (hull_walk points) (seq 0 n)).
Proof.
  change (min_element points) with (hull_walk points 0).
  apply in_map. apply in_seq. lia.
Qed.

Lemma hull_min :
  same_point (min_element (map (hull_walk points) (seq 0 n))) (min_element points).
Proof.
  assert (HneH : map (hull_walk points) (seq 0 n) <> []).
  { intro E. pose proof start_in_hull as S. rewrite E in S. destruct S. }
  destruct (min_element_spec _ HneH) as [Hm HmH].
  destruct (min_element_spec _ Hne) as [_ HmP].
  apply lex_less_total.
  - apply HmP. apply hull_incl. exact Hm.
  - apply HmH. exact start_in_hull.
Qed.

(** The second walk visits the same vertices as the first. *)
Lemma rerun_walk : forall k, (k <= n)%nat ->
  same_point (Nat.iter k (wrap_next (map (hull_walk points) (seq 0 n)))
                         (min_element (map (hull_walk points) (seq 0 n))))
             (hull_walk points k).
Proof.
  induction k as [|k IH]; intros Hk; [exact hull_min|].
  specialize (IH ltac:(lia)).
  change (hull_walk points (S k)) with (wrap_next points (hull_walk points k)).
  cbn [Nat.iter].
  destruct (walk_in k ltac:(lia)) as [Hin [d Hsup]].
  assert (Hex : exists p, In p points /\ ~ same_point p (hull_walk points k)).
  { destruct k as [|k'].
    - exists (hull_walk points 1). split; [apply (walk_in 1); lia|].
      exact (Hfirst 1 ltac:(lia)).
    - exists (min_element points).
      split; [exact (proj1 (min_element_spec _ Hne))|].
      intro Es. apply (Hfirst (S k') ltac:(lia)). apply same_point_sym. exact Es. }
  destruct (wrap_next_max points _ d Hsup Hex) as [_ [Wv _]].
  apply same_point_trans with (wrap_next (map (hull_walk points) (seq 0 n)) (hull_walk points k)).
  - apply wrap_next_compat. exact IH.
  - apply (wrap_next_unique points _ _ d Hsup hull_incl); [|exact Wv].
    destruct (Nat.eq_dec (S k) n) as [E|E].
    + exists (min_element points). split; [exact start_in_hull|].
      subst n. apply same_point_sym. exact Hret.
    + exists (hull_walk points (S k)). split; [|apply same_point_refl].
      apply in_map. apply in_seq. lia.
Qed.

End Rerun.

End WrapWalk.

(** ** Facts on the hull that [gift_wrapping] returns *)
Module HullFacts.
Import Geometry HullOrder WrapVectors WrapScan WrapWalk.
Local Open Scope Q_scope.

(** With three points or more, the result is the walk up to its first
    return to the start. *)
Lemma gift_wrapping_shape : forall points,
  (3 <= length points)%nat ->
  exists n, (1 <= n)%nat
  /\ gift_wrapping points = Some (ConvexPolygon_new (map (hull_walk points) (seq 0 n)))
  /\ same_point (hull_walk points n) (min_element points)
  /\ (forall j, (1 <= j < n)%nat -> ~ same_point (hull_walk points j) (min_element points))
  /\ (forall k, (k < n)%nat ->
        In (hull_walk points k) points /\ exists d, supporting points (hull_walk points k) d).
Proof.
  intros P H3.
  assert (Hne : P <> []) by (intro E; subst P; simpl in H3; lia).
  assert (Hle : (length P <=? 2)%nat = false) by (apply Nat.leb_gt; lia).
  destruct (walk_returns P Hne) as [n [Hn [Hret Hfirst]]].
  exists n. split; [lia|]. split; [exact (gift_wrapping_walk P n Hle Hn Hret Hfirst)|].
  split; [exact Hret|]. split; [exact Hfirst|].
  intros k Hk. destruct (walk_invariant P Hne k) as [Hin [d [m [Hsup _]]]].
  { intros j Hj. apply Hfirst. lia. }
  split; [exact Hin | exists d; exact Hsup].
Qed.

Lemma is_left_compat : forall a b b' q,
  same_point b b' -> is_left a b q == is_left a b' q.
Proof. intros a b b' q [E1 E2]. unfold is_left. rewrite E1, E2. reflexivity. Qed.

(** Every point is on or to the left of the edge from a supporting vertex
    to the next one. *)
Lemma edge_left : forall points v d p,
  supporting points v d -> In p points -> 0 <= is_left v (wrap_next points v) p.
Proof.
  intros P v d p Hsup Hp.
  destruct (exists_other_dec P v) as [Hex|Hall].
  - destruct (wrap_next_max P v d Hsup Hex) as [_ [_ WL]].
    pose proof (WL p Hp) as N. unfold goes_right_of in N.
    apply Qnot_lt_le. intro L. apply N. left.
    unfold cross, is_left, point_sub in *; simpl in *. exact L.
  - rewrite (wrap_next_all_same v P Hall). unfold is_left.
    apply Qle_lteq. right. ring.
Qed.

(** The walk, shifted, stays equal point by point. *)
Lemma walk_shift : forall points i j k,
  same_point (hull_walk points i) (hull_walk points j) ->
  same_point (hull_walk points (i + k)) (hull_walk points (j + k)).
Proof.
  intros P i j k E. induction k as [|k IH].
  - rewrite !Nat.add_0_r. exact E.
  - rewrite !Nat.add_succ_r.
    change (same_point (wrap_next P (hull_walk P (i + k))) (wrap_next P (hull_walk P (j + k)))).
    apply wrap_next_compat. exact IH.
Qed.

End HullFacts.

(** ** [ConvexPolygon::Impl::operator ==] *)
Module PolyEqFacts.
Import Geometry HullOrder WrapVectors.
Local Open Scope Q_scope.

Lemma poly_eq_iff : forall vs ws,
  poly_eq vs ws = true <->
  length vs = length ws
  /\ (length vs = 0%nat
      \/ exists o, (o < length vs)%nat /\ forall i, (i < length vs)%nat ->
            same_point (vertex_at vs i) (vertex_at ws ((i + o) mod length vs))).
Proof.
  intros vs ws. unfold poly_eq. cbv zeta.
  destruct (length vs =? length ws)%nat eqn:E; simpl negb; cbv iota.
  - apply Nat.eqb_eq in E. destruct (length vs =? 0)%nat eqn:Z.
    + apply Nat.eqb_eq in Z. split; [intros _; split; [exact E | left; exact Z] | reflexivity].
    + apply Nat.eqb_neq in Z. rewrite existsb_exists. split.
      * intros [o [Ho F]]. apply in_seq in Ho. split; [exact E|]. right.
        exists o. split; [lia|]. intros i Hi. apply point_eqb_iff.
        rewrite forallb_forall in F. apply F. apply in_seq. lia.
      * intros [_ [Z'|[o [Ho F]]]]; [contradiction|].
        exists o. split; [apply in_seq; lia|]. apply forallb_forall. intros i Hi.
        apply in_seq in Hi. apply point_eqb_iff. apply F. lia.
  - split; [discriminate|]. intros [E' _]. apply Nat.eqb_neq in E. contradiction.
Qed.

Lemma mod_add_back : forall n i o, (n <> 0)%nat -> (i < n)%nat -> (o < n)%nat ->
  (((i + (n - o) mod n) mod n + o) mod n = i)%nat.
Proof.
  intros n i o Hn Hi Ho.
  rewrite Nat.add_mod_idemp_l by exact Hn.
  rewrite <- Nat.add_assoc, (Nat.add_comm ((n - o) mod n) o), Nat.add_assoc.
  rewrite <- Nat.add_mod_idemp_r by exact Hn. rewrite Nat.mod_mod by exact Hn.
  rewrite Nat.add_mod_idemp_r by exact Hn.
  replace (i + o + (n - o))%nat with (i + 1 * n)%nat by lia.
  rewrite Nat.mod_add by exact Hn. apply Nat.mod_small. exact Hi.
Qed.

Lemma mod_add_twice : forall n i a b, (n <> 0)%nat ->
  (((i + a) mod n + b) mod n = (i + (a + b) mod n) mod n)%nat.
Proof.
  intros n i a b Hn.
  rewrite Nat.add_mod_idemp_l, Nat.add_mod_idemp_r by exact Hn.
  f_equal. lia.
Qed.

(** The vertex list rotated by [k] places, [k] at most its length. *)
Lemma vertex_at_rotation : forall vs k i,
  (k <= length vs)%nat -> (i < length vs)%nat ->
  vertex_at (skipn k vs ++ firstn k vs) i = vertex_at vs ((i + k) mod length vs).
Proof.
  intros vs k i Hk Hi. unfold vertex_at.
  destruct (Nat.lt_ge_cases i (length vs - k)) as [L|L].
  - rewrite app_nth1 by (rewrite length_skipn; exact L).
    rewrite nth_skipn. rewrite Nat.mod_small by lia. f_equal. lia.
  - rewrite app_nth2 by (rewrite length_skipn; exact L).
    rewrite nth_firstn, length_skipn.
    destruct (i - (length vs - k) <? k)%nat eqn:B; [|apply Nat.ltb_ge in B; lia].
    replace ((i + k) mod length vs)%nat with (i - (length vs - k))%nat; [reflexivity|].
    replace (i + k)%nat with ((i - (length vs - k)) + 1 * length vs)%nat by lia.
    rewrite Nat.mod_add by lia. rewrite Nat.mod_small by lia. reflexivity.
Qed.

Lemma map_add_seq : forall k a o,
  map (fun i => i + o)%nat (seq a k) = seq (a + o) k.
Proof.
  induction k as [|k IH]; intros a o; [reflexivity|].
  simpl. rewrite IH. reflexivity.
Qed.

(** Shifting the indices [0 .. n-1] by [o] modulo [n] permutes them. *)
Lemma rotation_permutation : forall n o, (o < n)%nat ->
  Permutation (map (fun i => (i + o) mod n)%nat (seq 0 n)) (seq 0 n).
Proof.
  intros n o Ho.
  assert (E1 : seq 0 n = seq 0 (n - o) ++ seq (n - o) o)
    by (rewrite <- seq_app; f_equal; lia).
  assert (E2 : seq 0 n = seq 0 o ++ seq o (n - o))
    by (rewrite <- seq_app; f_equal; lia).
  rewrite E1 at 1. rewrite map_app.
  rewrite (map_ext_in _ (fun i => i + o)%nat (seq 0 (n - o))).
  2:{ intros i Hi. apply in_seq in Hi. apply Nat.mod_small. lia. }
  rewrite map_add_seq. simpl.
  replace (seq (n - o) o) with (map (fun j => j + (n - o))%nat (seq 0 o))
    by (rewrite map_add_seq; reflexivity).
  rewrite map_map.
  rewrite (map_ext_in _ (fun j => j) (seq 0 o)).
  2:{ intros j Hj. apply in_seq in Hj.
      replace (j + (n - o) + o)%nat with (j + 1 * n)%nat by lia.
      rewrite Nat.mod_add by lia. apply Nat.mod_small. lia. }
  rewrite map_id, E2. simpl. apply Permutation_app_comm.
Qed.

Lemma forallb_permutation : forall (f : nat -> bool) l l',
  Permutation l l' -> forallb f l = forallb f l'.
Proof.
  intros f l l' P. induction P; simpl.
  - reflexivity.
  - rewrite IHP. reflexivity.
  - destruct (f x0), (f y0); reflexivity.
  - congruence.
Qed.

Lemma existsb_permutation : forall (f : nat -> bool) l l',
  Permutation l l' -> existsb f l = existsb f l'.
Proof.
  intros f l l' P. induction P; simpl.
  - reflexivity.
  - rewrite IHP. reflexivity.
  - destruct (f x0), (f y0); reflexivity.
  - congruence.
Qed.

Lemma qsum_permutation : forall l l' : list Q,
  Permutation l l' -> fold_right Qplus 0 l == fold_right Qplus 0 l'.
Proof.
  intros l l' P. induction P; simpl.
  - reflexivity.
  - rewrite IHP. reflexivity.
  - ring.
  - rewrite IHP1. exact IHP2.
Qed.

Lemma qsum_ext : forall (f g : nat -> Q) l,
  (forall i, In i l -> f i == g i) ->
  fold_right Qplus 0 (map f l) == fold_right Qplus 0 (map g l).
Proof.
  intros f g l H. induction l as [|i l IH]; simpl; [reflexivity|].
  rewrite (H i (or_introl eq_refl)), IH; [reflexivity|]. intros j Hj. apply H. right. exact Hj.
Qed.

(** The term of the shoelace sum that [area] adds for [vertex]. *)
Lemma area_as_sum : forall vs,
  area vs == fold_right Qplus 0
    (map (fun i => x (vertex_at vs ((i + length vs - 1) mod length vs)) * y (vertex_at vs i)
                 - y (vertex_at vs ((i + length vs - 1) mod length vs)) * x (vertex_at vs i))
         (seq 0 (length vs))) / 2.
Proof.
  intros vs. unfold area. set (n := length vs).
  set (T := fun i => x (vertex_at vs ((i + n - 1) mod n)) * y (vertex_at vs i)
                   - y (vertex_at vs ((i + n - 1) mod n)) * x (vertex_at vs i)).
  set (step := fun (acc : Q * nat) (vertex : nat) =>
    let '(a, previous) := acc in
    (a + (x (vertex_at vs previous) * y (vertex_at vs vertex)
          - y (vertex_at vs previous) * x (vertex_at vs vertex)), vertex)).
  assert (Hstep : forall a p v, step (a, p) v
            = (a + (x (vertex_at vs p) * y (vertex_at vs v)
                    - y (vertex_at vs p) * x (vertex_at vs v)), v)) by reflexivity.
  assert (Gen : forall k s a p, (1 <= s)%nat -> p = (s - 1)%nat -> (s + k <= n)%nat ->
            fst (fold_left step (seq s k) (a, p))
            == a + fold_right Qplus 0 (map T (seq s k))).
  { induction k as [|k IH]; intros s a p Hs Hp Hk.
    - cbn [seq fold_left map fold_right fst]. ring.
    - cbn [seq fold_left map fold_right]. rewrite Hstep. rewrite IH by lia.
      unfold T. replace ((s + n - 1) mod n)%nat with p; [ring|].
      replace (s + n - 1)%nat with (p + 1 * n)%nat by lia.
      rewrite Nat.mod_add by lia. rewrite Nat.mod_small by lia. reflexivity. }
  destruct (Nat.eq_dec n 0) as [Z|Z]; [rewrite Z; reflexivity|].
  replace (seq 0 n) with (0%nat :: seq 1 (n - 1))
    by (destruct n; [lia | simpl; rewrite Nat.sub_0_r; reflexivity]).
  assert (Hsum : fst (fold_left step (0%nat :: seq 1 (n - 1)) (0, (n - 1)%nat))
                 == fold_right Qplus 0 (map T (0%nat :: seq 1 (n - 1)))).
  { cbn [fold_left map fold_right]. rewrite Hstep. rewrite Gen by lia.
    unfold T at 2. replace ((0 + n - 1) mod n)%nat with (n - 1)%nat
      by (rewrite Nat.mod_small; lia). ring. }
  rewrite Hsum. reflexivity.
Qed.

Lemma forallb_ext_in : forall (f g : nat -> bool) l,
  (forall i, In i l -> f i = g i) -> forallb f l = forallb g l.
Proof.
  intros f g l H. induction l as [|i l IH]; simpl; [reflexivity|].
  rewrite (H i (or_introl eq_refl)), IH; [reflexivity|]. intros j Hj. apply H. right. exact Hj.
Qed.

Lemma forallb_map_comp : forall (f : nat -> bool) (g : nat -> nat) l,
  forallb f (map g l) = forallb (fun i => f (g i)) l.
Proof. intros f g l. induction l as [|i l IH]; simpl; [reflexivity | rewrite IH; reflexivity]. Qed.

Lemma Qle_bool_compat : forall a b c, a == b -> Qle_bool a c = Qle_bool b c.
Proof.
  intros a b c E. destruct (Qle_bool a c) eqn:A, (Qle_bool b c) eqn:B; try reflexivity.
  - apply Qle_bool_iff in A. rewrite E in A. apply Qle_bool_iff in A. congruence.
  - apply Qle_bool_iff in B. rewrite <- E in B. apply Qle_bool_iff in B. congruence.
Qed.

Lemma prev_index_shift : forall n i o, (n <> 0)%nat ->
  (((i + n - 1) mod n + o) mod n = ((i + o) mod n + n - 1) mod n)%nat.
Proof.
  intros n i o Hn. rewrite Nat.add_mod_idemp_l by exact Hn.
  replace ((i + o) mod n + n - 1)%nat with ((i + o) mod n + (n - 1))%nat by lia.
  rewrite Nat.add_mod_idemp_l by exact Hn. f_equal. lia.
Qed.

Lemma next_index_shift : forall n i o, (n <> 0)%nat ->
  (((i + 1) mod n + o) mod n = ((i + o) mod n + 1) mod n)%nat.
Proof.
  intros n i o Hn. rewrite !Nat.add_mod_idemp_l by exact Hn. f_equal. lia.
Qed.

Lemma Qle_bool_compat2 : forall a a' b b', a == a' -> b == b' -> Qle_bool a b = Qle_bool a' b'.
Proof.
  intros a a' b b' Ea Eb. destruct (Qle_bool a b) eqn:A, (Qle_bool a' b') eqn:B; try reflexivity.
  - apply Qle_bool_iff in A. rewrite Ea, Eb in A. apply Qle_bool_iff in A. congruence.
  - apply Qle_bool_iff in B. rewrite <- Ea, <- Eb in B. apply Qle_bool_iff in B. congruence.
Qed.

Lemma Qlt_bool_compat : forall a a' b b', a == a' -> b == b' -> Qlt_bool a b = Qlt_bool a' b'.
Proof. intros. unfold Qlt_bool. f_equal. apply Qle_bool_compat2; assumption. Qed.

Lemma map_vertex_at_seq : forall vs, map (vertex_at vs) (seq 0 (length vs)) = vs.
Proof.
  induction vs as [|v vs IH]; [reflexivity|].
  simpl. rewrite <- seq_shift, map_map. f_equal. exact IH.
Qed.

Lemma existsb_map_comp : forall (A : Type) (f : A -> bool) (g : nat -> A) l,
  existsb f (map g l) = existsb (fun i => f (g i)) l.
Proof. intros A f g l. induction l as [|i l IH]; simpl; [reflexivity | rewrite IH; reflexivity]. Qed.

Lemma existsb_ext_in : forall (A : Type) (f g : A -> bool) l,
  (forall i, In i l -> f i = g i) -> existsb f l = existsb g l.
Proof.
  intros A f g l H. induction l as [|i l IH]; simpl; [reflexivity|].
  rewrite (H i (or_introl eq_refl)), IH; [reflexivity|]. intros j Hj. apply H. right. exact Hj.
Qed.

Lemma poly_eq_length : forall vs ws, poly_eq vs ws = true -> length vs = length ws.
Proof. intros vs ws H. apply poly_eq_iff in H. apply H. Qed.

(** A test on the vertices that does not tell equal points apart gives the
    same answer on polygons equal under [operator ==]. *)
Lemma existsb_poly_eq : forall (g : Point -> bool) vs ws,
  (forall a b, same_point a b -> g a = g b) ->
  poly_eq vs ws = true -> existsb g vs = existsb g ws.
Proof.
  intros g vs ws Hg H. apply poly_eq_iff in H as [E [Z|[o [Ho F]]]].
  - destruct vs; [|discriminate]. destruct ws; [reflexivity|discriminate].
  - set (n := length vs) in *.
    transitivity (existsb g (map (vertex_at vs) (seq 0 n)));
      [unfold n; rewrite map_vertex_at_seq; reflexivity|].
    transitivity (existsb g (map (vertex_at ws) (seq 0 n)));
      [|rewrite E, map_vertex_at_seq; reflexivity].
    rewrite !existsb_map_comp. symmetry.
    rewrite <- (existsb_permutation _ _ _ (rotation_permutation n o Ho)).
    rewrite existsb_map_comp. apply existsb_ext_in.
    intros i Hi. apply in_seq in Hi. symmetry. apply Hg. apply F. lia.
Qed.

(** The same for a test on every edge [vertices[i] -> vertices[i + 1]]. *)
Lemma edges_poly_eq : forall (h : Point -> Point -> bool) vs ws,
  (forall a a' b b', same_point a a' -> same_point b b' -> h a b = h a' b') ->
  poly_eq vs ws = true ->
  forallb (fun i => h (vertex_at vs i) (vertex_at vs ((i + 1) mod length vs))) (seq 0 (length vs))
  = forallb (fun i => h (vertex_at ws i) (vertex_at ws ((i + 1) mod length ws))) (seq 0 (length ws)).
Proof.
  intros h vs ws Hh H. apply poly_eq_iff in H as [E [Z|[o [Ho F]]]].
  - rewrite <- E, Z. reflexivity.
  - rewrite <- E. set (n := length vs) in *. assert (Hn : n <> 0%nat) by lia.
    symmetry.
    rewrite <- (forallb_permutation _ _ _ (rotation_permutation n o Ho)).
    rewrite forallb_map_comp. apply forallb_ext_in.
    intros i Hi. apply in_seq in Hi. symmetry. apply Hh.
    + apply F. lia.
    + rewrite <- next_index_shift by exact Hn. apply F.
      apply Nat.mod_upper_bound. exact Hn.
Qed.

Lemma axis_test_compat : forall (other : list Point) p p' q q',
  same_point p p' -> same_point q q' ->
  existsb (fun other_vertex =>
             Qlt_bool (dot (mkPoint2 (y (point_sub q p)) (- x (point_sub q p)))
                           (point_sub other_vertex p)) 0) other
  = existsb (fun other_vertex =>
             Qlt_bool (dot (mkPoint2 (y (point_sub q' p')) (- x (point_sub q' p')))
                           (point_sub other_vertex p')) 0) other.
Proof.
  intros other p p' q q' [Epx Epy] [Eqx Eqy]. apply existsb_ext_in. intros v _.
  apply Qlt_bool_compat; [|reflexivity].
  unfold dot, point_sub. simpl. rewrite Epx, Epy, Eqx, Eqy. reflexivity.
Qed.

Lemma axis_overlap_poly_eq : forall a a' b b',
  poly_eq a a' = true -> poly_eq b b' = true ->
  forallb (axis_overlap a b) (seq 0 (length a)) = forallb (axis_overlap a' b') (seq 0 (length a')).
Proof.
  intros a a' b b' Ha Hb.
  transitivity (forallb (axis_overlap a b') (seq 0 (length a))).
  - apply forallb_ext_in. intros i _. unfold axis_overlap. apply existsb_poly_eq; [|exact Hb].
    intros v v' [Ex Ey]. apply Qlt_bool_compat; [|reflexivity].
    unfold dot, point_sub. simpl. rewrite Ex, Ey. reflexivity.
  - exact (edges_poly_eq _ a a' (axis_test_compat b') Ha).
Qed.

End PolyEqFacts.

(** ** Rigid motions: what [translate] and [rotate] do to the vertices *)
Module RigidFacts.
Import Transform.
Local Open Scope R_scope.

(** The shape-preserving maps: distances and signed areas are kept. *)
Definition keeps_shape (f : RPoint -> RPoint) : Prop :=
  (forall a b, rmagnitude2 (rpoint_sub (f a) (f b)) = rmagnitude2 (rpoint_sub a b))
  /\ (forall a b c, r_is_left (f a) (f b) (f c) = r_is_left a b c).

Lemma keeps_shape_id : keeps_shape (fun v => v).
Proof. split; reflexivity. Qed.

Lemma keeps_shape_comp : forall f g, keeps_shape f -> keeps_shape g ->
  keeps_shape (fun v => g (f v)).
Proof.
  intros f g [F1 F2] [G1 G2]. split; intros; [rewrite G1, F1 | rewrite G2, F2]; reflexivity.
Qed.

Lemma keeps_shape_translate : forall dx dy,
  keeps_shape (apply (translate Transformation_new dx dy)).
Proof.
  intros dx dy. split; intros; unfold rmagnitude2, rpoint_sub, r_is_left, apply;
    simpl; ring.
Qed.

Lemma keeps_shape_rotate : forall a,
  keeps_shape (apply (rotate Transformation_new a)).
Proof.
  intros a. assert (H : sin a ^ 2 + cos a ^ 2 = 1) by (rewrite <- (sin2_cos2 a); unfold Rsqr; ring).
  split; intros; unfold rmagnitude2, rpoint_sub, r_is_left, apply; simpl.
  - match goal with |- _ = ?r => replace r with (r * (sin a ^ 2 + cos a ^ 2))
      by (rewrite H; ring) end. ring.
  - match goal with |- _ = ?r => replace r with (r * (sin a ^ 2 + cos a ^ 2))
      by (rewrite H; ring) end. ring.
Qed.

Lemma perform_keeps_shape : forall op, exists f, keeps_shape f
  /\ forall p, vertices (perform p op) = map f (vertices p).
Proof.
  intros [dx dy|a].
  - exists (apply (translate Transformation_new dx dy)).
    split; [apply keeps_shape_translate | reflexivity].
  - exists (apply (rotate Transformation_new a)).
    split; [apply keeps_shape_rotate | reflexivity].
Qed.

Lemma perform_all_keeps_shape : forall ops p, exists f, keeps_shape f
  /\ vertices (perform_all p ops) = map f (vertices p).
Proof.
  induction ops as [|op ops IH]; intros p.
  - exists (fun v => v). split; [apply keeps_shape_id | symmetry; apply map_id].
  - destruct (perform_keeps_shape op) as [f [Hf Ef]].
    destruct (IH (perform p op)) as [g [Hg Eg]].
    exists (fun v => g (f v)). split; [apply keeps_shape_comp; assumption|].
    unfold perform_all in *. simpl. rewrite Eg, Ef, map_map. reflexivity.
Qed.

Lemma nth_map_in : forall (f : RPoint -> RPoint) vs i,
  (i < length vs)%nat -> nth i (map f vs) rorigin = f (nth i vs rorigin).
Proof.
  intros f vs i Hi. rewrite (nth_indep _ rorigin (f rorigin)) by (rewrite length_map; exact Hi).
  apply map_nth.
Qed.

End RigidFacts.

Module Claims.
Import Geometry Packing Transform Fixtures.

(** ** The packing score *)

(** C2: in the [ComputeScoreDouble] scenario the child's score is 2/3 (the
    test expects 1/3): [covered_area] ends as the area of the last object
    only, 1250, against a hull of area 3750. *)
Lemma compute_score_double_is_two_thirds :
  score_is (get_score double_child) (2 # 3)
  /\ ~ score_is (get_score double_child) (1 # 3)
  /\ score_is (score_as_documented triangle_moved (Some double_parent)) (1 # 3).
Proof. vm_compute. split; [reflexivity | split; [discriminate | reflexivity]]. Qed.

(** C1: for a root candidate, as built by [BeamSearch::pack] over the two
    triangles of [ComputeScoreDouble], the documented score (one placed
    triangle: no waste) is 0, while the code gives 2/3. *)
Lemma compute_score_root_ignores_chain :
  score_is (get_score (PackingCandidate_new double_objects triangle None)) (2 # 3)
  /\ score_is (score_as_documented triangle None) 0.
Proof. vm_compute. split; reflexivity. Qed.

(** C3: the score depends on [packed_objects] only, not on [pack_here] nor
    on [parent]. *)
Theorem compute_score_depends_on_packed_objects_only :
  forall objs here1 parent1 here2 parent2,
    get_score (PackingCandidate_new objs here1 parent1)
    = get_score (PackingCandidate_new objs here2 parent2).
Proof. intros. reflexivity. Qed.


(** ** Transformations *)

(** C5 (as claimed: a translate after a rotate is rotated as well) fails:
    [Transformation().rotate(pi).translate(0, 10)] maps the origin to
    (0, 10), as the test [RotationTranslation] expects, not to
    R(pi) (0, 10) = (0, -10). *)
Lemma translate_after_rotate_not_rotated :
  (apply (translate (rotate Transformation_new PI) 0 10) (mkPoint2 0 0)
   <> mkPoint2 (x (rotate_vector PI (mkPoint2 0 0)) + x (rotate_vector PI (mkPoint2 0 10)))
               (y (rotate_vector PI (mkPoint2 0 0)) + y (rotate_vector PI (mkPoint2 0 10))))%R.
Proof.
  unfold apply, translate, rotate, rotate_vector, Transformation_new; simpl.
  rewrite cos_PI, sin_PI. intro H. injection H as _ H. lra.
Qed.

(** C5 amended: [translate] adds the offset to the translation column as it
    is, so after a rotation the offset is taken in the fixed frame:
    [Transformation().rotate(theta).translate(dx, dy).apply(p)] is
    R(theta) p + (dx, dy). *)
Theorem translate_after_rotate_in_fixed_frame :
  forall (theta dx dy : R) (p : RPoint),
    apply (translate (rotate Transformation_new theta) dx dy) p
    = mkPoint2 (x (rotate_vector theta p) + dx)%R (y (rotate_vector theta p) + dy)%R.
Proof.
  intros theta dx dy [px py].
  unfold apply, translate, rotate, rotate_vector, Transformation_new; simpl.
  f_equal; ring.
Qed.


Section Composition.
Local Open Scope R_scope.

Lemma apply_compose : forall s t v, apply (compose s t) v = apply s (apply t v).
Proof.
  intros [s0 s1 s2 s3 s4 s5] [t0 t1 t2 t3 t4 t5] [vx vy].
  unfold apply, compose; simpl. f_equal; ring.
Qed.

Lemma translate_is_left_compose : forall t dx dy,
  translate t dx dy = compose (operation_matrix (Translate dx dy)) t.
Proof.
  intros [t0 t1 t2 t3 t4 t5] dx dy. unfold translate, compose; simpl. f_equal; ring.
Qed.

Lemma rotate_is_left_compose : forall t a,
  rotate t a = compose (operation_matrix (Rotate a)) t.
Proof.
  intros [t0 t1 t2 t3 t4 t5] a. unfold rotate, compose; simpl. f_equal; ring.
Qed.

Lemma perform_matrix : forall p op,
  transformation (perform p op) = compose (operation_matrix op) (transformation p).
Proof.
  intros p [dx dy | a]; simpl.
  - apply translate_is_left_compose.
  - apply rotate_is_left_compose.
Qed.

(** The one-off transformation built for a single operation is that
    operation's matrix. *)
Lemma perform_vertices : forall p op,
  vertices (perform p op) = map (apply (operation_matrix op)) (vertices p).
Proof.
  intros p [dx dy | a]; simpl; apply map_ext; intros [vx vy];
    unfold apply, translate, rotate, Transformation_new; simpl; f_equal; ring.
Qed.

Lemma perform_all_invariant : forall ops p vs,
  vertices p = map (apply (transformation p)) vs ->
  transformation (perform_all p ops)
  = fold_left (fun m op => compose (operation_matrix op) m) ops (transformation p)
  /\ vertices (perform_all p ops) = map (apply (transformation (perform_all p ops))) vs.
Proof.
  induction ops as [|op ops IH]; intros p vs Hv; simpl.
  - split; [reflexivity | exact Hv].
  - destruct (IH (perform p op) vs) as [Ht Hvs].
    + rewrite perform_vertices, perform_matrix, Hv, map_map.
      apply map_ext. intro v. symmetry. apply apply_compose.
    + rewrite <- perform_matrix. split; assumption.
Qed.

Lemma determinant_compose : forall s t,
  determinant (compose s t) = determinant s * determinant t.
Proof.
  intros [s0 s1 s2 s3 s4 s5] [t0 t1 t2 t3 t4 t5]. unfold determinant, compose; simpl. ring.
Qed.

Lemma determinant_operation : forall op, determinant (operation_matrix op) = 1.
Proof.
  intros [dx dy | a]; unfold determinant; simpl.
  - ring.
  - pose proof (sin2_cos2 a) as H. unfold Rsqr in H. nra.
Qed.

Lemma determinant_composed : forall ops m,
  determinant m = 1 ->
  determinant (fold_left (fun m op => compose (operation_matrix op) m) ops m) = 1.
Proof.
  induction ops as [|op ops IH]; intros m Hm; simpl.
  - exact Hm.
  - apply IH. rewrite determinant_compose, determinant_operation, Hm. ring.
Qed.

Lemma apply_inverse : forall t v, determinant t <> 0 -> apply (inverse t) (apply t v) = v.
Proof.
  intros [t0 t1 t2 t3 t4 t5] [vx vy] Hd. unfold determinant in Hd; simpl in Hd.
  unfold apply, inverse, determinant; simpl. f_equal; field; exact Hd.
Qed.

End Composition.

(** C9: a new polygon's transformation is the identity; after any sequence
    of [translate]/[rotate] calls it is the product of the operations'
    matrices, newest on the left; applied to the vertices given at
    construction it gives the current vertices, and its inverse maps the
    current vertices back to those. *)
Theorem polygon_transformation_tracks_operations :
  forall (vs : list RPoint) (ops : list Operation),
    transformation (ConvexPolygon_new vs) = Transformation_new
    /\ transformation (perform_all (ConvexPolygon_new vs) ops) = composed_matrix ops
    /\ vertices (perform_all (ConvexPolygon_new vs) ops)
       = map (apply (transformation (perform_all (ConvexPolygon_new vs) ops))) vs
    /\ map (apply (inverse (transformation (perform_all (ConvexPolygon_new vs) ops))))
           (vertices (perform_all (ConvexPolygon_new vs) ops)) = vs.
Proof.
  intros vs ops.
  assert (Hv : vertices (ConvexPolygon_new vs) = map (apply (transformation (ConvexPolygon_new vs))) vs).
  { simpl. rewrite <- (map_id vs) at 1. apply map_ext. intros [vx vy].
    unfold apply, Transformation_new; simpl. f_equal; ring. }
  destruct (perform_all_invariant ops (ConvexPolygon_new vs) vs Hv) as [Ht Hvs].
  split; [reflexivity|]. split; [exact Ht|]. split; [exact Hvs|].
  rewrite Hvs, map_map. rewrite <- (map_id vs) at 2. apply map_ext. intro v.
  apply apply_inverse. rewrite Ht. unfold composed_matrix. rewrite determinant_composed.
  - lra.
  - unfold determinant, Transformation_new; simpl. ring.
Qed.

(** ** Polygon predicates *)

Lemma collides_impl_back_unfold : forall a b,
  collides_impl_back a b
  = negb ((length a <? 3) || (length b <? 3))%nat && forallb (axis_overlap a b) (seq 0 (length a)).
Proof.
  intros a b. unfold collides_impl_back.
  destruct ((length a <? 3) || (length b <? 3))%nat; [reflexivity|].
  destruct (forallb (axis_overlap a b) (seq 0 (length a))); reflexivity.
Qed.

Lemma collides_unfold : forall a b,
  collides a b = collides_impl_back a b && collides_impl_back b a.
Proof.
  intros a b. unfold collides, collides_impl. rewrite !collides_impl_back_unfold.
  destruct ((length a <? 3) || (length b <? 3))%nat; [reflexivity|].
  destruct (forallb (axis_overlap a b) (seq 0 (length a))); reflexivity.
Qed.

(** C6: collision is symmetric. *)
Theorem collides_symmetric : forall a b : list Point, collides a b = collides b a.
Proof. intros a b. rewrite !collides_unfold. apply andb_comm. Qed.

Local Open Scope Q_scope.

Lemma is_left_on_segment : forall a b p t,
  x p == x a + t * (x b - x a) -> y p == y a + t * (y b - y a) -> is_left a b p == 0.
Proof.
  intros a b p t Hx Hy. unfold is_left. rewrite Hx, Hy. ring.
Qed.

(** C7: [contains] is false below 3 vertices; otherwise it holds exactly when
    the point is strictly left of every edge; a point on an edge (a vertex
    included, [t = 0]) is never contained. *)
Theorem contains_strictly_left_of_every_edge : forall (vs : list Point) (p : Point),
  (contains vs p = true <->
     (3 <= length vs)%nat
     /\ forall i, (i < length vs)%nat ->
                  0 < is_left (vertex_at vs i) (vertex_at vs ((i + 1) mod length vs)) p)
  /\ (forall i t, (i < length vs)%nat -> 0 <= t <= 1 ->
        x p == x (vertex_at vs i) + t * (x (vertex_at vs ((i + 1) mod length vs)) - x (vertex_at vs i)) ->
        y p == y (vertex_at vs i) + t * (y (vertex_at vs ((i + 1) mod length vs)) - y (vertex_at vs i)) ->
        contains vs p = false).
Proof.
  intros vs p.
  assert (Hiff : contains vs p = true <->
     (3 <= length vs)%nat
     /\ forall i, (i < length vs)%nat ->
                  0 < is_left (vertex_at vs i) (vertex_at vs ((i + 1) mod length vs)) p).
  { unfold contains. destruct (length vs <? 3)%nat eqn:Hn.
    - apply Nat.ltb_lt in Hn. split; [discriminate | intros [H _]; lia].
    - apply Nat.ltb_ge in Hn. rewrite forallb_forall. split.
      + intros H. split; [exact Hn|]. intros i Hi.
        specialize (H i (proj2 (in_seq _ _ _) (conj (Nat.le_0_l i) Hi))).
        apply negb_true_iff in H. apply Qnot_le_lt. intro Hle.
        apply Qle_bool_iff in Hle. congruence.
      + intros [_ H] i Hi. apply in_seq in Hi. apply negb_true_iff.
        specialize (H i (proj2 Hi)). destruct (Qle_bool _ 0) eqn:E; [|reflexivity].
        apply Qle_bool_iff in E. exfalso. apply (Qlt_not_le _ _ H E). }
  split; [exact Hiff|].
  intros i t Hi Ht Hx Hy. apply not_true_is_false. intro E.
  apply Hiff in E. destruct E as [_ E]. specialize (E i Hi).
  rewrite (is_left_on_segment _ _ _ t Hx Hy) in E. exact (Qlt_irrefl 0 E).
Qed.

(** C8: 0, 1 or 2 vertices: area 0, nothing contained, no collision with
    anything, and the hull of at most 2 points is those points. *)
Theorem degenerate_polygons : forall vs : list Point,
  (length vs <= 2)%nat ->
  area vs == 0
  /\ (forall p, contains vs p = false)
  /\ (forall other, collides vs other = false /\ collides other vs = false)
  /\ convex_hull vs = Some (ConvexPolygon_new vs).
Proof.
  intros vs Hn.
  assert (Hlt : (length vs <? 3)%nat = true) by (apply Nat.ltb_lt; lia).
  split; [|split; [|split]].
  - destruct vs as [|a [|b [|c vs]]]; simpl in Hn; try lia;
      unfold area; simpl; unfold vertex_at; simpl; field.
  - intro p. unfold contains. rewrite Hlt. reflexivity.
  - intro other. unfold collides, collides_impl. rewrite Hlt. simpl.
    rewrite orb_true_r. split; reflexivity.
  - unfold convex_hull, gift_wrapping.
    assert (Hle : (length vs <=? 2)%nat = true) by (apply Nat.leb_le; exact Hn).
    rewrite Hle. reflexivity.
Qed.

Lemma degenerate_polygons_witness :
  (length [pt 3 4; pt 7 1] <= 2)%nat /\ area [pt 3 4; pt 7 1] == 0.
Proof. split; [simpl; lia | apply (degenerate_polygons [pt 3 4; pt 7 1]); simpl; lia]. Defined.


(** ** Idempotence of the hull *)

(** C4: for every list of points [points], [convex_hull points] returns a
    polygon (its [do]-loop ends), [convex_hull] of that polygon's vertex list
    returns a polygon too, and the two are equal under [operator==]: the same
    vertex loop up to a rotation. *)
Lemma convex_hull_idempotent : forall points,
  exists hull, convex_hull points = Some hull
  /\ exists hull', convex_hull (vertices hull) = Some hull'
     /\ poly_eq (vertices hull') (vertices hull) = true.
Proof.
  intros P. unfold convex_hull.
  destruct (length P <=? 2)%nat eqn:Hle.
  - exists (ConvexPolygon_new P). split; [unfold gift_wrapping; rewrite Hle; reflexivity|].
    exists (ConvexPolygon_new P). cbn [vertices ConvexPolygon_new].
    split; [unfold gift_wrapping; rewrite Hle; reflexivity | apply WrapWalk.poly_eq_refl].
  - assert (Hne : P <> []) by (intro E; subst P; discriminate Hle).
    destruct (WrapWalk.walk_returns P Hne) as [n [Hn [Hret Hfirst]]].
    rewrite (WrapWalk.gift_wrapping_walk P n Hle Hn Hret Hfirst).
    eexists. split; [reflexivity|]. cbn [vertices ConvexPolygon_new].
    unfold gift_wrapping at 1.
    destruct (length (map (HullOrder.hull_walk P) (seq 0 n)) <=? 2)%nat eqn:HleH.
    + eexists. split; [reflexivity|]. apply WrapWalk.poly_eq_refl.
    + rewrite length_map, length_seq in HleH. apply Nat.leb_gt in HleH.
      pose proof (WrapWalk.rerun_walk P n Hne ltac:(lia) Hret Hfirst) as R.
      set (H := map (HullOrder.hull_walk P) (seq 0 n)) in *.
      assert (R0 : HullOrder.same_point (Nat.iter 0 (wrap_next H) (min_element H))
                                        (min_element P)) by exact (R 0%nat ltac:(lia)).
      assert (Ret : HullOrder.same_point (Nat.iter n (wrap_next H) (min_element H))
                                         (Nat.iter 0 (wrap_next H) (min_element H))).
      { apply WrapVectors.same_point_trans with (min_element P).
        - apply WrapVectors.same_point_trans with (HullOrder.hull_walk P n);
            [exact (R n ltac:(lia)) | exact Hret].
        - apply WrapVectors.same_point_sym. exact R0. }
      assert (First : forall j, (1 <= j < n)%nat ->
                ~ HullOrder.same_point (Nat.iter j (wrap_next H) (min_element H))
                                       (Nat.iter 0 (wrap_next H) (min_element H))).
      { intros j Hj E. apply (Hfirst j Hj).
        apply WrapVectors.same_point_trans with (Nat.iter j (wrap_next H) (min_element H)).
        - apply WrapVectors.same_point_sym. exact (R j ltac:(lia)).
        - apply WrapVectors.same_point_trans with (Nat.iter 0 (wrap_next H) (min_element H));
            [exact E | exact R0]. }
      pose proof (WrapWalk.wrap_loop_walk H (min_element H) n ltac:(lia) Ret First
                    (wrap_fuel H) 0 ltac:(lia)
                    ltac:(unfold wrap_fuel, H; rewrite length_map, length_seq; lia)) as W.
      change (wrap_loop (wrap_fuel H) H (min_element H) []) with
        (wrap_loop (wrap_fuel H) H (Nat.iter 0 (wrap_next H) (min_element H))
           (map (fun j => Nat.iter j (wrap_next H) (min_element H)) (seq 0 0))).
      rewrite W. eexists. split; [reflexivity|]. cbn [vertices ConvexPolygon_new].
      apply WrapWalk.poly_eq_pointwise; [unfold H; rewrite !length_map; reflexivity|].
      intros i Hi. rewrite length_map, length_seq in Hi. unfold H.
      rewrite !WrapWalk.vertex_at_map_seq by exact Hi.
      exact (R i ltac:(lia)).
Qed.

End Claims.

(** * Further properties of the code *)
Module Extras.
Import Geometry HullOrder WrapVectors WrapScan WrapWalk HullFacts Fixtures.
Local Open Scope Q_scope.

(** ** [gift_wrapping] *)

(** X1: every vertex of [convex_hull points] is one of the input points. *)
Lemma convex_hull_vertices_are_input : forall points,
  exists hull, convex_hull points = Some hull /\ incl (vertices hull) points.
Proof.
  intros P. unfold convex_hull.
  destruct (Nat.le_gt_cases 3 (length P)) as [H3|H3].
  - destruct (gift_wrapping_shape P H3) as [n [Hn [Hgw [_ [_ Hwalk]]]]].
    rewrite Hgw. eexists. split; [reflexivity|]. cbn [vertices ConvexPolygon_new].
    intros h Hh. apply in_map_iff in Hh. destruct Hh as [k [<- Hk]].
    apply in_seq in Hk. apply (Hwalk k). lia.
  - assert (Hle : (length P <=? 2)%nat = true) by (apply Nat.leb_le; lia).
    unfold gift_wrapping. rewrite Hle.
    eexists. split; [reflexivity|]. apply incl_refl.
Qed.

(** X2: every input point lies on or to the left of every edge of
    [convex_hull points] (from vertex [i] to vertex [(i + 1) mod n]). *)
Lemma convex_hull_encloses_input : forall points,
  exists hull, convex_hull points = Some hull
  /\ forall i p, (i < length (vertices hull))%nat -> In p points ->
       0 <= is_left (vertex_at (vertices hull) i)
                    (vertex_at (vertices hull) ((i + 1) mod length (vertices hull))) p.
Proof.
  intros P. unfold convex_hull.
  destruct (Nat.le_gt_cases 3 (length P)) as [H3|H3].
  - destruct (gift_wrapping_shape P H3) as [n [Hn [Hgw [Hret [_ Hwalk]]]]].
    rewrite Hgw. eexists. split; [reflexivity|]. cbn [vertices ConvexPolygon_new].
    rewrite length_map, length_seq. intros i p Hi Hp.
    rewrite vertex_at_map_seq by exact Hi.
    destruct (Hwalk i Hi) as [_ [d Hsup]].
    pose proof (edge_left P _ d p Hsup Hp) as L.
    assert (E : same_point (vertex_at (map (hull_walk P) (seq 0 n)) ((i + 1) mod n))
                           (wrap_next P (hull_walk P i))).
    { destruct (Nat.eq_dec (i + 1) n) as [Eq|Neq].
      - rewrite Eq, Nat.mod_same by lia. rewrite vertex_at_map_seq by lia.
        apply same_point_sym. rewrite <- Eq, Nat.add_1_r in Hret. exact Hret.
      - rewrite Nat.mod_small by lia. rewrite vertex_at_map_seq by lia.
        rewrite Nat.add_1_r. apply same_point_refl. }
    rewrite (is_left_compat _ _ _ p E). exact L.
  - assert (Hle : (length P <=? 2)%nat = true) by (apply Nat.leb_le; lia).
    unfold gift_wrapping. rewrite Hle.
    eexists. split; [reflexivity|]. cbn [vertices ConvexPolygon_new].
    intros i p Hi Hp.
    destruct P as [|a [|b [|c P']]]; simpl in H3, Hi; try lia;
      destruct i as [|[|i]]; try lia;
      repeat (destruct Hp as [<-|Hp]); try destruct Hp;
      unfold vertex_at, is_left; simpl; apply Qle_lteq; right; ring.
Qed.

(** X3: with three points or more, the first vertex of [convex_hull points]
    is lexicographically least: no input point has a smaller x, or the same x
    and a smaller y. *)
Lemma convex_hull_starts_leftmost : forall points,
  (3 <= length points)%nat ->
  exists hull, convex_hull points = Some hull
  /\ forall p, In p points -> lex_less p (vertex_at (vertices hull) 0) = false.
Proof.
  intros P H3. unfold convex_hull.
  destruct (gift_wrapping_shape P H3) as [n [Hn [Hgw _]]].
  rewrite Hgw. eexists. split; [reflexivity|]. cbn [vertices ConvexPolygon_new].
  rewrite vertex_at_map_seq by lia.
  assert (Hne : P <> []) by (intro E; subst P; simpl in H3; lia).
  exact (proj2 (min_element_spec P Hne)).
Qed.

Lemma convex_hull_starts_leftmost_witness :
  (3 <= length [pt 0 0; pt 4 0; pt 0 3])%nat
  /\ exists hull, convex_hull [pt 0 0; pt 4 0; pt 0 3] = Some hull
     /\ forall p, In p [pt 0 0; pt 4 0; pt 0 3] ->
          lex_less p (vertex_at (vertices hull) 0) = false.
Proof. split; [simpl; lia | apply convex_hull_starts_leftmost; simpl; lia]. Defined.

(** X4: with three points or more, no two vertices of [convex_hull points]
    are equal under [Point2::operator ==]. *)
Lemma convex_hull_vertices_distinct : forall points,
  (3 <= length points)%nat ->
  exists hull, convex_hull points = Some hull
  /\ forall i j, (i < j < length (vertices hull))%nat ->
       point_eqb (vertex_at (vertices hull) i) (vertex_at (vertices hull) j) = false.
Proof.
  intros P H3. unfold convex_hull.
  destruct (gift_wrapping_shape P H3) as [n [Hn [Hgw [Hret [Hfirst _]]]]].
  rewrite Hgw. eexists. split; [reflexivity|]. cbn [vertices ConvexPolygon_new].
  rewrite length_map, length_seq. intros i j Hij.
  rewrite !vertex_at_map_seq by lia.
  apply point_eqb_false. intro E.
  pose proof (walk_shift P i j (n - j) E) as S.
  replace (j + (n - j))%nat with n in S by lia.
  apply (Hfirst (i + (n - j))%nat); [lia|].
  exact (same_point_trans _ _ _ S Hret).
Qed.

Lemma convex_hull_vertices_distinct_witness :
  (3 <= length [pt 0 0; pt 4 0; pt 0 3; pt 4 0])%nat
  /\ exists hull, convex_hull [pt 0 0; pt 4 0; pt 0 3; pt 4 0] = Some hull
     /\ forall i j, (i < j < length (vertices hull))%nat ->
          point_eqb (vertex_at (vertices hull) i) (vertex_at (vertices hull) j) = false.
Proof. split; [simpl; lia | apply convex_hull_vertices_distinct; simpl; lia]. Defined.

(** Extra: polygon equality is symmetric; when [a == b] holds, [b == a]
    holds as well. *)
Lemma poly_eq_sym : forall vs ws, poly_eq vs ws = true -> poly_eq ws vs = true.
Proof.
  intros vs ws H. apply PolyEqFacts.poly_eq_iff in H as [E [Z|[o [Ho F]]]];
    apply PolyEqFacts.poly_eq_iff; (split; [symmetry; exact E|]); [left; lia|].
  right. rewrite <- E. set (n := length vs) in *.
  exists ((n - o) mod n)%nat. split; [apply Nat.mod_upper_bound; lia|].
  intros i Hi. set (j := ((i + (n - o) mod n) mod n)%nat).
  assert (Hj : (j < n)%nat) by (apply Nat.mod_upper_bound; lia).
  apply same_point_sym. specialize (F j Hj). unfold j in F at 2.
  rewrite PolyEqFacts.mod_add_back in F by lia. exact F.
Qed.

Lemma poly_eq_sym_witness :
  poly_eq [pt 0 0; pt 4 0; pt 0 3] [pt 4 0; pt 0 3; pt 0 0] = true
  /\ poly_eq [pt 4 0; pt 0 3; pt 0 0] [pt 0 0; pt 4 0; pt 0 3] = true.
Proof. split; [vm_compute; reflexivity | apply poly_eq_sym; vm_compute; reflexivity]. Defined.

(** Extra: polygon equality is transitive; [a == b] and [b == c] give
    [a == c], the rotation offsets adding up modulo the vertex count. *)
Lemma poly_eq_trans : forall vs ws us,
  poly_eq vs ws = true -> poly_eq ws us = true -> poly_eq vs us = true.
Proof.
  intros vs ws us H1 H2.
  apply PolyEqFacts.poly_eq_iff in H1 as [E1 [Z1|[o1 [Ho1 F1]]]];
  apply PolyEqFacts.poly_eq_iff in H2 as [E2 [Z2|[o2 [Ho2 F2]]]];
  apply PolyEqFacts.poly_eq_iff; (split; [congruence|]); try (left; lia).
  right. rewrite <- E1 in *. set (n := length vs) in *.
  exists ((o1 + o2) mod n)%nat. split; [apply Nat.mod_upper_bound; lia|].
  intros i Hi. eapply same_point_trans; [apply F1; exact Hi|].
  rewrite <- PolyEqFacts.mod_add_twice by lia.
  apply F2. apply Nat.mod_upper_bound; lia.
Qed.

Lemma poly_eq_trans_witness :
  poly_eq [pt 0 0; pt 4 0; pt 0 3] [pt 4 0; pt 0 3; pt 0 0] = true
  /\ poly_eq [pt 4 0; pt 0 3; pt 0 0] [pt 0 3; pt 0 0; pt 4 0] = true
  /\ poly_eq [pt 0 0; pt 4 0; pt 0 3] [pt 0 3; pt 0 0; pt 4 0] = true.
Proof.
  split; [vm_compute; reflexivity|]. split; [vm_compute; reflexivity|].
  apply (poly_eq_trans _ [pt 4 0; pt 0 3; pt 0 0]); vm_compute; reflexivity.
Defined.

(** Extra: a polygon equals every rotation of its own vertex list: moving
    the first [k] vertices to the back gives a polygon that compares equal. *)
Lemma poly_eq_rotation : forall vs k,
  poly_eq (skipn k vs ++ firstn k vs) vs = true.
Proof.
  intros vs k. destruct (Nat.le_gt_cases k (length vs)) as [Hk|Hk].
  - assert (Len : length (skipn k vs ++ firstn k vs) = length vs)
      by (rewrite length_app, length_skipn, length_firstn; lia).
    apply PolyEqFacts.poly_eq_iff. split; [exact Len|]. rewrite Len.
    destruct (Nat.eq_dec (length vs) 0) as [Z|Z]; [left; exact Z|]. right.
    exists (k mod length vs)%nat. split; [apply Nat.mod_upper_bound; exact Z|].
    intros i Hi. rewrite PolyEqFacts.vertex_at_rotation by assumption.
    rewrite Nat.add_mod_idemp_r by exact Z. apply same_point_refl.
  - rewrite skipn_all2, firstn_all2 by lia. apply poly_eq_refl.
Qed.

(** Extra: polygons that compare equal under [operator ==] have the same
    [area()]. *)
Lemma area_respects_poly_eq : forall vs ws, poly_eq vs ws = true -> area vs == area ws.
Proof.
  intros vs ws H. apply PolyEqFacts.poly_eq_iff in H as [E [Z|[o [Ho F]]]].
  - destruct vs; [|discriminate]. destruct ws; [reflexivity|discriminate].
  - rewrite !PolyEqFacts.area_as_sum. rewrite <- E. set (n := length vs) in *.
    assert (Hn : n <> 0%nat) by lia.
    set (Tw := fun j => x (vertex_at ws ((j + n - 1) mod n)) * y (vertex_at ws j)
                      - y (vertex_at ws ((j + n - 1) mod n)) * x (vertex_at ws j)).
    rewrite (PolyEqFacts.qsum_ext _ (fun i => Tw ((i + o) mod n)%nat)).
    + rewrite <- (map_map (fun i => (i + o) mod n)%nat Tw).
      rewrite (PolyEqFacts.qsum_permutation _ _
                 (Permutation_map _ (PolyEqFacts.rotation_permutation n o Ho))).
      reflexivity.
    + intros i Hi. apply in_seq in Hi.
      assert (Hp : ((i + n - 1) mod n < n)%nat) by (apply Nat.mod_upper_bound; exact Hn).
      destruct (F i ltac:(lia)) as [E1 E2]. destruct (F _ Hp) as [E3 E4].
      unfold Tw. rewrite E1, E2, E3, E4, PolyEqFacts.prev_index_shift by exact Hn.
      reflexivity.
Qed.

Lemma area_respects_poly_eq_witness :
  poly_eq [pt 0 0; pt 4 0; pt 0 3] [pt 4 0; pt 0 3; pt 0 0] = true
  /\ area [pt 0 0; pt 4 0; pt 0 3] == area [pt 4 0; pt 0 3; pt 0 0].
Proof.
  split; [vm_compute; reflexivity|]. apply area_respects_poly_eq. vm_compute. reflexivity.
Defined.

(** Extra: polygons that compare equal under [operator ==] contain exactly
    the same points. *)
Lemma contains_respects_poly_eq : forall vs ws point,
  poly_eq vs ws = true -> contains vs point = contains ws point.
Proof.
  intros vs ws point H. apply PolyEqFacts.poly_eq_iff in H as [E [Z|[o [Ho F]]]].
  - unfold contains. rewrite <- E, Z. reflexivity.
  - unfold contains. rewrite <- E. set (n := length vs) in *.
    destruct (n <? 3)%nat; [reflexivity|].
    assert (Hn : n <> 0%nat) by lia.
    symmetry.
    rewrite <- (PolyEqFacts.forallb_permutation _ _ _ (PolyEqFacts.rotation_permutation n o Ho)).
    rewrite PolyEqFacts.forallb_map_comp. apply PolyEqFacts.forallb_ext_in.
    intros i Hi. apply in_seq in Hi. f_equal. apply PolyEqFacts.Qle_bool_compat. symmetry.
    assert (Hq : ((i + 1) mod n < n)%nat) by (apply Nat.mod_upper_bound; exact Hn).
    destruct (F i ltac:(lia)) as [E1 E2]. destruct (F _ Hq) as [E3 E4].
    unfold is_left. rewrite E1, E2, E3, E4, PolyEqFacts.next_index_shift by exact Hn.
    reflexivity.
Qed.

Lemma contains_respects_poly_eq_witness :
  poly_eq [pt 0 0; pt 4 0; pt 0 3] [pt 0 3; pt 0 0; pt 4 0] = true
  /\ contains [pt 0 0; pt 4 0; pt 0 3] (pt 1 1) = contains [pt 0 3; pt 0 0; pt 4 0] (pt 1 1).
Proof.
  split; [vm_compute; reflexivity|]. apply contains_respects_poly_eq. vm_compute. reflexivity.
Defined.

(** Extra: when [packed_objects] holds at most one polygon, the score that
    [compute_score] returns is 0, whatever [pack_here] and [parent] are. *)
Lemma compute_score_at_most_one_object : forall objs here parent,
  (length objs <= 1)%nat ->
  exists s, Packing.compute_score objs here parent = Some s /\ s == 0.
Proof.
  intros objs here parent Hlen.
  destruct objs as [|p [|q r]]; [| |simpl in Hlen; lia].
  - exists 0. split; reflexivity.
  - unfold Packing.compute_score, convex_hull_polygons, chans_algorithm. simpl fold_left.
    destruct (Qle_bool (area (vertices p)) 0) eqn:A.
    + exists 0. split; reflexivity.
    + eexists. split; [reflexivity|].
      assert (Hne : ~ area (vertices p) == 0).
      { intros Z. rewrite Z in A. discriminate. }
      field. exact Hne.
Qed.

Lemma compute_score_at_most_one_object_witness :
  (length [triangle] <= 1)%nat
  /\ exists s, Packing.compute_score [triangle] triangle None = Some s /\ s == 0.
Proof. split; [simpl; lia | apply compute_score_at_most_one_object; simpl; lia]. Defined.

(** Extra: Chan's algorithm over polygons that all have no vertices returns
    a polygon with no vertices (for two or more polygons, no starting vertex
    is found). *)
Lemma chans_algorithm_all_empty : forall ps,
  (forall p, In p ps -> vertices p = []) ->
  exists hull, convex_hull_polygons ps = Some hull /\ vertices hull = [].
Proof.
  intros ps H. unfold convex_hull_polygons, chans_algorithm.
  destruct ps as [|p [|q r]].
  - eexists. split; reflexivity.
  - exists p. split; [reflexivity|]. apply H. left. reflexivity.
  - set (ps := p :: q :: r).
    assert (Hv : forall i, vertices (nth i ps (ConvexPolygon_new [])) = []).
    { intros i. destruct (nth_in_or_default i ps (ConvexPolygon_new [])) as [I|D].
      - apply H. exact I.
      - rewrite D. reflexivity. }
    assert (Hfold : forall l (acc : Point * nat * option nat),
      fold_left (fun (acc : Point * nat * option nat) polygon =>
       let '(best, best_vertex, best_polygon) := acc in
       let vs := vertices (nth polygon ps (ConvexPolygon_new [])) in
       match vs with
       | [] => acc
       | _ =>
         let lower_bound := leftmost_index vs in
         if lex_less (vertex_at vs lower_bound) best
         then (vertex_at vs lower_bound, lower_bound, Some polygon)
         else acc
       end) l acc = acc).
    { induction l as [|i l IH]; intros [[b bv] bp]; [reflexivity|].
      cbn [fold_left]. cbv beta iota zeta. rewrite (Hv i). apply IH. }
    unfold leftmost_start. fold ps. rewrite Hfold.
    eexists. split; reflexivity.
Qed.

Lemma chans_algorithm_all_empty_witness :
  (forall p, In p [@ConvexPolygon_new Q []; @ConvexPolygon_new Q []] -> vertices p = [])
  /\ exists hull, convex_hull_polygons [@ConvexPolygon_new Q []; @ConvexPolygon_new Q []] = Some hull
                  /\ vertices hull = [].
Proof.
  assert (H : forall p, In p [@ConvexPolygon_new Q []; @ConvexPolygon_new Q []] -> vertices p = [])
    by (intros p [<-|[<-|[]]]; reflexivity).
  split; [exact H | apply chans_algorithm_all_empty; exact H].
Defined.

(** Extra: [collides] gives the same answer when either polygon is replaced
    by one equal to it under [operator ==]. *)
Lemma collides_respects_poly_eq : forall a a' b b',
  poly_eq a a' = true -> poly_eq b b' = true -> collides a b = collides a' b'.
Proof.
  intros a a' b b' Ha Hb. unfold collides, collides_impl, collides_impl_back.
  rewrite (PolyEqFacts.axis_overlap_poly_eq a a' b b' Ha Hb),
          (PolyEqFacts.axis_overlap_poly_eq b b' a a' Hb Ha),
          (PolyEqFacts.poly_eq_length a a' Ha), (PolyEqFacts.poly_eq_length b b' Hb).
  reflexivity.
Qed.

Lemma collides_respects_poly_eq_witness :
  poly_eq [pt 0 0; pt 4 0; pt 0 3] [pt 4 0; pt 0 3; pt 0 0] = true
  /\ poly_eq [pt 1 1; pt 5 1; pt 1 4] [pt 1 4; pt 1 1; pt 5 1] = true
  /\ collides [pt 0 0; pt 4 0; pt 0 3] [pt 1 1; pt 5 1; pt 1 4]
     = collides [pt 4 0; pt 0 3; pt 0 0] [pt 1 4; pt 1 1; pt 5 1].
Proof.
  split; [vm_compute; reflexivity|]. split; [vm_compute; reflexivity|].
  apply collides_respects_poly_eq; vm_compute; reflexivity.
Defined.

(** Extra: the hull never has more vertices than there are input points. *)
Lemma convex_hull_size_bound : forall points,
  exists hull, convex_hull points = Some hull
  /\ (length (vertices hull) <= length points)%nat.
Proof.
  intros P. unfold convex_hull.
  destruct (Nat.le_gt_cases 3 (length P)) as [H3|H3].
  - destruct (gift_wrapping_shape P H3) as [n [Hn [Hgw [Hret [Hfirst Hwalk]]]]].
    rewrite Hgw. eexists. split; [reflexivity|]. cbn [vertices ConvexPolygon_new].
    apply NoDup_incl_length.
    + apply (NoDup_nth _ origin). rewrite length_map, length_seq. intros i j Hi Hj Eij.
      change (vertex_at (map (hull_walk P) (seq 0 n)) i
              = vertex_at (map (hull_walk P) (seq 0 n)) j) in Eij.
      rewrite !vertex_at_map_seq in Eij by lia.
      assert (Hnot : forall a b, (a < b < n)%nat -> ~ same_point (hull_walk P a) (hull_walk P b)).
      { intros a b Hab E. pose proof (walk_shift P a b (n - b) E) as Sh.
        replace (b + (n - b))%nat with n in Sh by lia.
        apply (Hfirst (a + (n - b))%nat); [lia|].
        exact (same_point_trans _ _ _ Sh Hret). }
      destruct (Nat.lt_total i j) as [L|[L|L]]; [| exact L |].
      * exfalso. apply (Hnot i j); [lia|]. rewrite Eij. apply same_point_refl.
      * exfalso. apply (Hnot j i); [lia|]. rewrite Eij. apply same_point_refl.
    + intros h Hh. apply in_map_iff in Hh. destruct Hh as [k [<- Hk]].
      apply in_seq in Hk. apply (Hwalk k). lia.
  - assert (Hle : (length P <=? 2)%nat = true) by (apply Nat.leb_le; lia).
    unfold gift_wrapping. rewrite Hle.
    eexists. split; [reflexivity|]. apply Nat.le_refl.
Qed.

(** Extra: when the input holds three or more copies of one point, the
    hull is the polygon with that single vertex. *)
Lemma convex_hull_repeated_point : forall p n,
  (3 <= n)%nat -> convex_hull (repeat p n) = Some (ConvexPolygon_new [p]).
Proof.
  intros p n Hn. unfold convex_hull, gift_wrapping.
  rewrite repeat_length. replace (n <=? 2)%nat with false by (symmetry; apply Nat.leb_gt; lia).
  assert (Hnext : wrap_next (repeat p n) p = p).
  { apply wrap_next_all_same. intros q Hq. apply repeat_spec in Hq. subst q.
    apply same_point_refl. }
  unfold wrap_fuel. rewrite repeat_length.
  destruct n as [|n']; [lia|].
  assert (Hmin : min_element (repeat p (S n')) = p).
  { simpl. clear. induction n' as [|k IH]; [reflexivity|].
    simpl. rewrite lex_less_irrefl. exact IH. }
  rewrite Hmin. replace (2 * S n')%nat with (S (2 * n' + 1)) by lia.
  cbn [wrap_loop app]. rewrite Hnext.
  replace (point_eqb p (vertex_at [p] 0)) with true
    by (symmetry; apply point_eqb_iff; apply same_point_refl).
  reflexivity.
Qed.

Lemma convex_hull_repeated_point_witness :
  (3 <= 4)%nat /\ convex_hull (repeat (pt 1 2) 4) = Some (ConvexPolygon_new [pt 1 2]).
Proof. split; [lia | apply convex_hull_repeated_point; lia]. Defined.

End Extras.

(** ** Extras on the transformations and the polygon mutators *)
Module TransformExtras.
Import Transform RigidFacts.
Local Open Scope R_scope.

(** Extra: any sequence of [translate]/[rotate] calls on a polygon keeps the
    squared distance between every two of its vertices. *)
Lemma perform_all_keeps_distances : forall ops p i j,
  (i < length (vertices p))%nat -> (j < length (vertices p))%nat ->
  rmagnitude2 (rpoint_sub (nth i (vertices (perform_all p ops)) rorigin)
                          (nth j (vertices (perform_all p ops)) rorigin))
  = rmagnitude2 (rpoint_sub (nth i (vertices p) rorigin) (nth j (vertices p) rorigin)).
Proof.
  intros ops p i j Hi Hj. destruct (perform_all_keeps_shape ops p) as [f [[F _] E]].
  rewrite E, !nth_map_in by assumption. apply F.
Qed.

Lemma perform_all_keeps_distances_witness :
  let p := mkConvexPolygon [mkPoint2 0 0; mkPoint2 3 0; mkPoint2 0 4] Transformation_new in
  let ops := [Translate 11 22; Rotate 3; Translate (-11) (-22)] in
  (0 < length (vertices p))%nat /\ (1 < length (vertices p))%nat /\
  rmagnitude2 (rpoint_sub (nth 0 (vertices (perform_all p ops)) rorigin)
                          (nth 1 (vertices (perform_all p ops)) rorigin))
  = rmagnitude2 (rpoint_sub (nth 0 (vertices p) rorigin) (nth 1 (vertices p) rorigin)).
Proof.
  intros p ops. split; [simpl; lia|]. split; [simpl; lia|].
  apply perform_all_keeps_distances; simpl; lia.
Defined.

(** Extra: any sequence of [translate]/[rotate] calls on a polygon keeps the
    signed area [is_left] of every three of its vertices, so a
    counter-clockwise vertex loop stays counter-clockwise. *)
Lemma perform_all_keeps_orientation : forall ops p i j k,
  (i < length (vertices p))%nat -> (j < length (vertices p))%nat ->
  (k < length (vertices p))%nat ->
  r_is_left (nth i (vertices (perform_all p ops)) rorigin)
            (nth j (vertices (perform_all p ops)) rorigin)
            (nth k (vertices (perform_all p ops)) rorigin)
  = r_is_left (nth i (vertices p) rorigin) (nth j (vertices p) rorigin)
              (nth k (vertices p) rorigin).
Proof.
  intros ops p i j k Hi Hj Hk. destruct (perform_all_keeps_shape ops p) as [f [[_ F] E]].
  rewrite E, !nth_map_in by assumption. apply F.
Qed.

Lemma perform_all_keeps_orientation_witness :
  let p := mkConvexPolygon [mkPoint2 0 0; mkPoint2 3 0; mkPoint2 0 4] Transformation_new in
  let ops := [Rotate 1; Translate 5 (-2)] in
  (0 < length (vertices p))%nat /\ (1 < length (vertices p))%nat /\
  (2 < length (vertices p))%nat /\
  r_is_left (nth 0 (vertices (perform_all p ops)) rorigin)
            (nth 1 (vertices (perform_all p ops)) rorigin)
            (nth 2 (vertices (perform_all p ops)) rorigin)
  = r_is_left (nth 0 (vertices p) rorigin) (nth 1 (vertices p) rorigin)
              (nth 2 (vertices p) rorigin).
Proof.
  intros p ops. split; [simpl; lia|]. split; [simpl; lia|]. split; [simpl; lia|].
  apply perform_all_keeps_orientation; simpl; lia.
Defined.

End TransformExtras.
